(** * Constraint representation of the compiled backend (r1c.go)

    Shallow embedding of [internal/backend/compiled/r1c.go]: the
    [Visibility] enumeration, the canonical order [Less] on a
    [LinearExpression], [Clone]/[Swap] over a store of backing arrays, and
    the textual rendering [R1C.String] through a [strings.Builder].

    The packed [Term] type and its accessors live in a file of the package
    that is not part of this development; they are modelled from the
    specification, with the field widths left as parameters. *)

From Stdlib Require Import ZArith String Ascii List Lia DecimalString Bool.
From stdpp Require Import base gmap list sorting.

Local Open Scope Z_scope.

(** ** Run-time outcomes

    A Go function either returns or panics.  [coeffs[i]] and [l[i]] raise
    the run-time error "index out of range", a field read through a nil
    pointer raises "nil pointer dereference"; [panic("...")] raises the
    given string. *)

Inductive panic : Type :=
| IndexOutOfRange
| NilDereference
| PanicString (msg : string).

Inductive outcome (A : Type) : Type :=
| Ok (a : A)
| Panic (p : panic).
Arguments Ok {A} a.
Arguments Panic {A} p.

Definition obind {A B : Type} (o : outcome A) (k : A -> outcome B) : outcome B :=
  match o with
  | Ok a => k a
  | Panic p => Panic p
  end.

Declare Scope outcome_scope.
Delimit Scope outcome_scope with outcome.
Notation "x <-! c ; k" := (obind c (fun x => k))
  (at level 20, c at level 100, k at level 200) : outcome_scope.

(** [p.f] through a pointer [p], which is nil ([None]) or points to a
    value. *)
Definition field {A B : Type} (p : option A) (f : A -> B) : outcome B :=
  match p with
  | Some a => Ok (f a)
  | None => Panic NilDereference
  end.

(** [s[i]] on a Go slice seen as the list of its elements: the index is an
    [int], and anything outside [0 <= i < len(s)] panics. *)
Definition index {A : Type} (s : list A) (i : Z) : outcome A :=
  if i <? 0 then Panic IndexOutOfRange
  else match s !! Z.to_nat i with
       | Some a => Ok a
       | None => Panic IndexOutOfRange
       end.

(** ** Stateful computations

    A method that writes through a pointer ([*strings.Builder], the backing
    array of a slice) is a function of the state it writes to; when it
    panics, the writes made so far stay in the state. *)

Definition M (St A : Type) : Type := St -> outcome A * St.

Definition ret {St A : Type} (a : A) : M St A := fun st => (Ok a, st).

Definition bind {St A B : Type} (m : M St A) (k : A -> M St B) : M St B :=
  fun st =>
    match m st with
    | (Ok a, st') => k a st'
    | (Panic p, st') => (Panic p, st')
    end.

Definition lift {St A : Type} (o : outcome A) : M St A := fun st => (o, st).

Declare Scope monad_scope.
Delimit Scope monad_scope with monad.
Notation "x <~ c ; k" := (bind c (fun x => k))
  (at level 20, c at level 100, k at level 200) : monad_scope.
Notation "c ;; k" := (bind c (fun _ => k))
  (at level 100, k at level 200, right associativity) : monad_scope.

(** *** strings.Builder

    The builder is its accumulated contents; [WriteString] appends. *)

Definition Builder : Type := string.

Definition WriteString (s : string) : M Builder unit :=
  fun sbb => (Ok tt, (sbb ++ s)%string).

(** [big.Int.String] and [strconv.Itoa]: the decimal digits, with a leading
    minus sign for a negative number. *)
Definition bigInt_String (x : Z) : string := NilZero.string_of_int (Z.to_int x).
Definition Itoa (n : Z) : string := NilZero.string_of_int (Z.to_int n).

(** A computation that only appends to the builder: it leaves what was
    written in place, also when it panics, and neither its outcome nor the
    text it adds depends on what was written. *)
Definition appends {A : Type} (m : M Builder A) : Prop :=
  forall sbb : Builder,
    m sbb = ((m EmptyString).1, (sbb ++ (m EmptyString).2)%string).

(** ** Visibility

    [type Visibility uint8] with the constants numbered by [iota]. *)

Definition Visibility : Type := Z.

Definition Unset : Visibility := 0.
Definition Internal : Visibility := 1.
Definition Secret : Visibility := 2.
Definition Public : Visibility := 3.
Definition Virtual : Visibility := 4.

(** The declared constants, in declaration order. *)
Definition declaredVisibilities : list Visibility :=
  [Unset; Internal; Secret; Public; Virtual].

(** The [switch] of [Term.string]: the letter written for a visibility, and
    [None] for the [default] branch. *)
Definition visibilityPrefix (v : Visibility) : option string :=
  if v =? Internal then Some "i"%string
  else if v =? Public then Some "p"%string
  else if v =? Secret then Some "s"%string
  else if v =? Virtual then Some "v"%string
  else if v =? Unset then Some "u"%string
  else None.

(** ** Term *)

Section Compiled.

(** Modelled from the spec: the packed [Term] and the operations [Pack],
    [Unpack], [CoeffID], [VariableID] and [VariableVisibility], whose
    source file is missing.  The spec describes a triple (coefficientId,
    variableId, visibility) packed into one fixed-width unsigned value,
    [pack] failing with InvalidVisibility or RangeOverflow, [unpack] the
    total inverse, and the three projections expressed through [unpack].
    The spec leaves the widths of the two ids open: they are the
    parameters [nbBitsCoeffID] and [nbBitsVariableID].  The visibility is a
    [uint8] in the source and takes the low eight bits here. *)
Variables nbBitsCoeffID nbBitsVariableID : N.

(** Modelled from the spec: the packed value, an unsigned integer. *)
Definition Term : Type := Z.

(** Modelled from the spec: the layout of the three fields, the visibility
    lowest, then the variable id, then the coefficient id. *)
Definition nbBitsVariableVisibility : Z := 8.
Definition shiftVariableID : Z := nbBitsVariableVisibility.
Definition shiftCoeffID : Z := nbBitsVariableVisibility + Z.of_N nbBitsVariableID.

Definition maskVariableVisibility : Z := Z.ones nbBitsVariableVisibility.
Definition maskVariableID : Z := Z.ones (Z.of_N nbBitsVariableID).
Definition maskCoeffID : Z := Z.ones (Z.of_N nbBitsCoeffID).

(** Modelled from the spec: the two ways [pack] fails. *)
Inductive packError : Type :=
| InvalidVisibility
| RangeOverflow.

(** Modelled from the spec: "one of these five values". *)
Definition validVisibility (v : Visibility) : bool :=
  (v =? Unset) || (v =? Internal) || (v =? Secret) || (v =? Public) || (v =? Virtual).

(** Modelled from the spec: an id fits the width of its field. *)
Definition validID (width : N) (id : Z) : bool :=
  (0 <=? id) && (id <? 2 ^ Z.of_N width).

(** Modelled from the spec: [pack], which fails with InvalidVisibility on a
    visibility outside the five values and with RangeOverflow on an id that
    exceeds its width. *)
Definition Pack (coeffID variableID : Z) (vis : Visibility) : packError + Term :=
  if negb (validVisibility vis) then inl InvalidVisibility
  else if negb (validID nbBitsCoeffID coeffID && validID nbBitsVariableID variableID)
       then inl RangeOverflow
  else inr (Z.lor (Z.lor (Z.shiftl coeffID shiftCoeffID)
                         (Z.shiftl variableID shiftVariableID))
                  vis).

(** Modelled from the spec: [unpack], total on every packed value. *)
Definition Unpack (t : Term) : Z * Z * Visibility :=
  (Z.land (Z.shiftr t shiftCoeffID) maskCoeffID,
   Z.land (Z.shiftr t shiftVariableID) maskVariableID,
   Z.land t maskVariableVisibility).

(** Modelled from the spec: the projections, through [Unpack]. *)
Definition CoeffID (t : Term) : Z := let '(c, _, _) := Unpack t in c.
Definition VariableID (t : Term) : Z := let '(_, v, _) := Unpack t in v.
Definition VariableVisibility (t : Term) : Visibility := let '(_, _, vis) := Unpack t in vis.

(** ** LinearExpression: the read-only methods

    A [LinearExpression] is a slice of Terms; the methods that only read
    it are functions of the list of its elements. *)

Definition LinearExpression : Type := list Term.

Definition Len (l : LinearExpression) : Z := Z.of_nat (length l).

(** The comparison made by [Less] once both Terms are unpacked. *)
Definition lessTerm (ti tj : Term) : bool :=
  let '(_, iID, iVis) := Unpack ti in
  let '(_, jID, jVis) := Unpack tj in
  if iVis =? jVis then iID <? jID else iVis >? jVis.

Definition Less (l : LinearExpression) (i j : Z) : outcome bool :=
  (ti <-! index l i;
   tj <-! index l j;
   Ok (lessTerm ti tj))%outcome.

(** What the canonical order looks at: the visibility and the variable id. *)
Definition orderKey (t : Term) : Visibility * Z :=
  (VariableVisibility t, VariableID t).

(** The order on keys that [Less] decides: higher visibility first,
    then lower variable id. *)
Definition keyLt (k1 k2 : Visibility * Z) : Prop :=
  k1.1 > k2.1 \/ (k1.1 = k2.1 /\ k1.2 < k2.2).

Definition keyLe (k1 k2 : Visibility * Z) : Prop := ~ keyLt k2 k1.

(** [sort.IsSorted] over the [Less] of a LinearExpression: no element is
    less than its predecessor. *)
Definition IsSorted (l : LinearExpression) : Prop :=
  forall i : Z, 0 < i < Len l -> Less l i (i - 1) = Ok false.

(** ** LinearExpression as a slice over a store

    [Clone] and [Swap] write to memory.  A slice value is a window
    ([offset], [len], [cap]) on a backing array, and the store maps the
    address of every allocated array to its contents; two slices alias
    when they name the same array.  The nil slice has no array. *)

Record slice : Type := mkSlice {
  array : option nat;
  offset : nat;
  len : nat;
  cap : nat
}.

Abbreviation store := (gmap nat (list Term)).

Definition backing (h : store) (l : slice) : option (list Term) :=
  match array l with
  | Some p => h !! p
  | None => None
  end.

(** The Terms a slice shows, [l[0] .. l[len(l)-1]]. *)
Definition elements (h : store) (l : slice) : LinearExpression :=
  match backing h l with
  | Some a => take (len l) (drop (offset l) a)
  | None => []
  end.

(** A write into the array of a slice. *)
Definition updateBacking (l : slice) (f : list Term -> list Term) (h : store) : store :=
  match array l with
  | Some p => alter f p h
  | None => h
  end.

(** A slice of the store: its array is allocated and holds its window, or
    it is nil. *)
Definition valid (h : store) (l : slice) : Prop :=
  match array l with
  | Some p =>
      exists a : list Term,
        h !! p = Some a /\ (len l <= cap l)%nat /\ (offset l + cap l <= length a)%nat
  | None => len l = 0%nat /\ cap l = 0%nat
  end.

(** [make(LinearExpression, n)]: a new array of [n] zero Terms. *)
Definition make (n : nat) : M store slice :=
  fun h =>
    let p := fresh (dom h) in
    (Ok (mkSlice (Some p) 0 n n), <[p := replicate n 0]> h).

(** [copy(dst, src)]: the first [min(len(dst), len(src))] elements of
    [src] overwrite the start of [dst]; the count is returned. *)
Definition copy (dst src : slice) : M store Z :=
  fun h =>
    let n := Nat.min (len dst) (len src) in
    let from := take n (elements h src) in
    (Ok (Z.of_nat n),
     updateBacking dst
       (fun a => take (offset dst) a ++ from ++ drop (offset dst + n) a) h).

Definition Clone (l : slice) : M store slice :=
  (res <~ make (len l);
   _ <~ copy res l;
   ret res)%monad.

(** [l[i]] read and [l[i] = t] written through the slice. *)
Definition load (l : slice) (i : Z) : M store Term :=
  fun h => (index (elements h l) i, h).

Definition storeAt (l : slice) (i : Z) (t : Term) : M store unit :=
  fun h =>
    match index (elements h l) i with
    | Ok _ => (Ok tt, updateBacking l (fun a => <[(offset l + Z.to_nat i)%nat := t]> a) h)
    | Panic p => (Panic p, h)
    end.

(** [l[i], l[j] = l[j], l[i]]: both right-hand sides are read, then both
    elements are written. *)
Definition Swap (l : slice) (i j : Z) : M store unit :=
  (tj <~ load l j;
   ti <~ load l i;
   storeAt l i tj ;;
   storeAt l j ti)%monad.

(** The capacity the run time picks when [append] has to grow a slice to
    hold [n] elements is its own choice; it is at least [n]. *)
Variable growCap : nat -> nat.

(** [append(l, t)]: in place when the capacity allows, otherwise into a
    new array that receives the old elements. *)
Definition append (l : slice) (t : Term) : M store slice :=
  fun h =>
    if (len l <? cap l)%nat then
      (Ok (mkSlice (array l) (offset l) (S (len l)) (cap l)),
       updateBacking l (fun a => <[(offset l + len l)%nat := t]> a) h)
    else
      let p := fresh (dom h) in
      let n := S (len l) in
      let c := Nat.max n (growCap n) in
      (Ok (mkSlice (Some p) 0 n c),
       <[p := elements h l ++ [t] ++ replicate (c - n) 0]> h).

(** The ways a caller can change the sequence of a LinearExpression it
    holds: swap two elements (the reordering step of [sort.Sort]), assign
    an element, append a Term. *)
Inductive mutation : Type :=
| MSwap (i j : Z)
| MStore (i : Z) (t : Term)
| MAppend (t : Term).

Definition mutate (l : slice) (m : mutation) : M store slice :=
  match m with
  | MSwap i j => (Swap l i j ;; ret l)%monad
  | MStore i t => (storeAt l i t ;; ret l)%monad
  | MAppend t => append l t
  end.

(** A run of mutations, each on the slice the previous one left; a panic
    ends the run. *)
Fixpoint mutateAll (l : slice) (ms : list mutation) : M store slice :=
  match ms with
  | [] => ret l
  | m :: rest => (l' <~ mutate l m; mutateAll l' rest)%monad
  end.

(** ** Rendering *)

Record R1C : Type := mkR1C {
  L : LinearExpression;
  R : LinearExpression;
  O : LinearExpression
}.

Definition Term_string (t : Term) (coeffs : list Z) : M Builder unit :=
  (c <~ lift (index coeffs (CoeffID t));
   WriteString (bigInt_String c) ;;
   WriteString "*" ;;
   match visibilityPrefix (VariableVisibility t) with
   | Some letter => WriteString letter
   | None => lift (Panic (PanicString "not implemented"))
   end ;;
   WriteString (Itoa (VariableID t)))%monad.

(** The loop [for i := 0; i < len(l); i++] visits the elements in order;
    [i+1 < len(l)] holds exactly when elements remain after the current
    one. *)
Fixpoint LinearExpression_string (l : LinearExpression) (coeffs : list Z)
  : M Builder unit :=
  match l with
  | [] => ret tt
  | t :: rest =>
      (Term_string t coeffs ;;
       match rest with
       | [] => ret tt
       | _ :: _ => WriteString " + "
       end ;;
       LinearExpression_string rest coeffs)%monad
  end.

(** The receiver is a pointer, [r1c *R1C]; [r1c.L], [r1c.R] and [r1c.O]
    read through it.  [var sbb strings.Builder] starts empty;
    [sbb.String()] is returned when nothing panicked. *)
Definition R1C_String (r1c : option R1C) (coeffs : list Z) : outcome string :=
  let body :=
    (WriteString "L[" ;;
     l <~ lift (field r1c L);
     LinearExpression_string l coeffs ;;
     WriteString "] * R[" ;;
     r <~ lift (field r1c R);
     LinearExpression_string r coeffs ;;
     WriteString "] = O[" ;;
     o <~ lift (field r1c O);
     LinearExpression_string o coeffs ;;
     WriteString "]")%monad in
  match body EmptyString with
  | (Ok _, sbb) => Ok sbb
  | (Panic p, _) => Panic p
  end.

(** The rendering of the spec, written from its grammar and not from the
    code: a Term is [<coefficient value>*<visibility prefix><variableId>],
    a LinearExpression is its Terms joined by [" + "], a constraint is
    ["L[" Linear "] * R[" Linear "] = O[" Linear "]"]; rendering fails on a
    coefficient id without entry in the table and on a visibility without
    prefix.  The methods above are compared with these functions. *)
Definition render_term_spec (coeffs : list Z) (t : Term) : outcome string :=
  (c <-! index coeffs (CoeffID t);
   match visibilityPrefix (VariableVisibility t) with
   | Some letter => Ok (bigInt_String c ++ "*" ++ letter ++ Itoa (VariableID t))%string
   | None => Panic (PanicString "not implemented")
   end)%outcome.

Fixpoint join_spec (sep : string) (parts : list string) : string :=
  match parts with
  | [] => EmptyString
  | [p] => p
  | p :: rest => (p ++ sep ++ join_spec sep rest)%string
  end.

Fixpoint render_terms_spec (coeffs : list Z) (l : LinearExpression)
  : outcome (list string) :=
  match l with
  | [] => Ok []
  | t :: rest =>
      (s <-! render_term_spec coeffs t;
       ss <-! render_terms_spec coeffs rest;
       Ok (s :: ss))%outcome
  end.

Definition render_spec (coeffs : list Z) (l : LinearExpression) : outcome string :=
  (ss <-! render_terms_spec coeffs l; Ok (join_spec " + " ss))%outcome.

Definition render_R1C_spec (coeffs : list Z) (r1c : R1C) : outcome string :=
  (sl <-! render_spec coeffs (L r1c);
   sr <-! render_spec coeffs (R r1c);
   so <-! render_spec coeffs (O r1c);
   Ok ("L[" ++ sl ++ "] * R[" ++ sr ++ "] = O[" ++ so ++ "]")%string)%outcome.

(** * Properties *)

(** ** Indexing *)

Lemma index_Ok_lookup {A : Type} (s : list A) (i : Z) (a : A) :
  index s i = Ok a <-> 0 <= i /\ s !! Z.to_nat i = Some a.
Proof.
  unfold index. destruct (Z.ltb_spec i 0) as [Hneg | Hpos].
  - split; [discriminate | lia].
  - destruct (s !! Z.to_nat i) as [x |] eqn:E; split.
    + intros [= ->]. auto.
    + intros [_ [= ->]]. reflexivity.
    + discriminate.
    + intros [_ [=]].
Qed.

Lemma index_cons_succ {A : Type} (x : A) (s : list A) (i : Z) :
  0 <= i -> index (x :: s) (i + 1) = index s i.
Proof.
  intros Hi. unfold index.
  destruct (Z.ltb_spec (i + 1) 0); [lia |].
  destruct (Z.ltb_spec i 0); [lia |].
  replace (Z.to_nat (i + 1)) with (S (Z.to_nat i)) by lia. reflexivity.
Qed.

Lemma index_in_range {A : Type} (s : list A) (i : Z) :
  0 <= i < Z.of_nat (length s) -> exists a, index s i = Ok a.
Proof.
  intros Hi. destruct (lookup_lt_is_Some_2 s (Z.to_nat i)) as [a Ha]; [lia |].
  exists a. apply index_Ok_lookup. split; [lia | exact Ha].
Qed.

(** ** The canonical order *)

Lemma lessTerm_true (a b : Term) :
  lessTerm a b = true <-> keyLt (orderKey a) (orderKey b).
Proof.
  unfold lessTerm, keyLt, orderKey, VariableVisibility, VariableID.
  destruct (Unpack a) as [[ca ia] va], (Unpack b) as [[cb ib] vb]. simpl.
  destruct (Z.eqb_spec va vb) as [-> | Hne].
  - rewrite Z.ltb_lt. lia.
  - rewrite Z.gtb_ltb, Z.ltb_lt. lia.
Qed.

Lemma lessTerm_false (a b : Term) :
  lessTerm a b = false <-> keyLe (orderKey b) (orderKey a).
Proof.
  unfold keyLe. rewrite <- lessTerm_true. destruct (lessTerm a b); split; congruence.
Qed.

Lemma Less_index (l : LinearExpression) (i j : Z) (a b : Term) :
  index l i = Ok a -> index l j = Ok b -> Less l i j = Ok (lessTerm a b).
Proof. intros Ha Hb. unfold Less. rewrite Ha, Hb. reflexivity. Qed.

Lemma Less_Ok_inv (l : LinearExpression) (i j : Z) (r : bool) :
  Less l i j = Ok r ->
  exists a b, index l i = Ok a /\ index l j = Ok b /\ lessTerm a b = r.
Proof.
  unfold Less. destruct (index l i) as [a |]; [| discriminate].
  destruct (index l j) as [b |]; [| discriminate].
  simpl. intros [= <-]. eauto.
Qed.

#[local] Instance keyLe_trans : Transitive keyLe.
Proof. intros [v1 i1] [v2 i2] [v3 i3]. unfold keyLe, keyLt. simpl. lia. Qed.

#[local] Instance keyLe_antisymm : AntiSymm (=) keyLe.
Proof.
  intros [v1 i1] [v2 i2]. unfold keyLe, keyLt. simpl. intros H1 H2.
  f_equal; lia.
Qed.

Lemma IsSorted_tail (a : Term) (l : LinearExpression) :
  IsSorted (a :: l) -> IsSorted l.
Proof.
  intros H i Hi. specialize (H (i + 1)).
  unfold Less in *. unfold Len in *. simpl length in H.
  replace (i + 1 - 1) with (i - 1 + 1) in H by lia.
  rewrite !index_cons_succ in H by lia. apply H. lia.
Qed.

Lemma IsSorted_keys (l : LinearExpression) :
  IsSorted l -> Sorted keyLe (orderKey <$> l).
Proof.
  induction l as [| a l IH]; intros H; simpl.
  - constructor.
  - constructor; [apply IH; eapply IsSorted_tail; eauto |].
    destruct l as [| b l]; simpl; constructor.
    specialize (H 1). unfold Len in H. simpl length in H.
    assert (Hlt : 0 < 1 < Z.of_nat (S (S (length l)))) by lia.
    specialize (H Hlt). simpl in H. injection H as H.
    apply lessTerm_false in H. exact H.
Qed.

Lemma keys_determine (l s1 s2 : LinearExpression) :
  (forall a b, a ∈ l -> b ∈ l -> orderKey a = orderKey b -> a = b) ->
  Permutation l s1 -> Permutation l s2 ->
  orderKey <$> s1 = orderKey <$> s2 -> s1 = s2.
Proof.
  intros Hinj P1 P2.
  assert (H1 : forall a, a ∈ s1 -> a ∈ l) by (intros a; rewrite P1; auto).
  assert (H2 : forall a, a ∈ s2 -> a ∈ l) by (intros a; rewrite P2; auto).
  clear P1 P2. revert s2 H2.
  induction s1 as [| a s1 IH]; intros [| b s2] H2 E; simpl in E; try discriminate.
  - reflexivity.
  - change (orderKey a :: (orderKey <$> s1) = orderKey b :: (orderKey <$> s2)) in E.
    apply (f_equal head) in E as Ek; simpl in Ek.
    apply (f_equal tail) in E as Et; simpl in Et.
    assert (Ek' : orderKey a = orderKey b) by congruence. f_equal.
    + apply Hinj; [apply H1 | apply H2 | exact Ek']; left.
    + apply IH; [| | exact Et].
      * intros x Hx. apply H1. right. exact Hx.
      * intros x Hx. apply H2. right. exact Hx.
Qed.

(** C9 (amended): [Visibility] is a [uint8] with five declared constants
    and is not closed.  The constants carry, in declaration order, the
    priority values 0 to 4 (the k-th constant has value k, so Unset=0,
    Internal=1, Secret=2, Public=3, Virtual=4), in the order
    Unset < Internal < Secret < Public < Virtual; a value is one of them
    exactly when it lies between 0 and 4, and every other [uint8], 5 to
    255, is a [Visibility] that no constant names. *)
Theorem Visibility_declared_values :
  (forall (k : nat) (v : Visibility),
      declaredVisibilities !! k = Some v -> v = Z.of_nat k) /\
  length declaredVisibilities = 5%nat /\
  (Unset < Internal /\ Internal < Secret /\ Secret < Public /\ Public < Virtual) /\
  (forall v : Visibility, v ∈ declaredVisibilities <-> 0 <= v <= 4) /\
  (forall v : Visibility, 4 < v < 2 ^ 8 -> v ∉ declaredVisibilities) /\
  (forall v : Visibility, v ∈ declaredVisibilities -> 0 <= v < 2 ^ 8).
Proof.
  assert (Hmem : forall v : Visibility, v ∈ declaredVisibilities <-> 0 <= v <= 4).
  { intros v. unfold declaredVisibilities.
    rewrite !elem_of_cons, elem_of_nil.
    unfold Unset, Internal, Secret, Public, Virtual. lia. }
  split; [| split; [reflexivity | split; [| split; [exact Hmem | split]]]].
  - intros k v. unfold declaredVisibilities.
    do 5 (destruct k as [| k]; [intros [= <-]; reflexivity |]).
    discriminate.
  - unfold Unset, Internal, Secret, Public, Virtual. lia.
  - intros v Hv Hin. apply Hmem in Hin. lia.
  - intros v Hin. apply Hmem in Hin. lia.
Qed.

(** C1: [Less] ranks the Term at [i] before the Term at [j] exactly when
    its visibility is higher, or the visibilities are equal and its
    variable id is lower; so Virtual comes before Public, Public before
    Secret, Secret before Internal and Internal before Unset, a Virtual
    Term comes before an Internal one whatever the ids, and of two Terms
    of equal visibility with ids 5 and 2 the one with id 2 comes first. *)
Theorem Less_canonical_order (l : LinearExpression) (i j : Z) (a b : Term) :
  index l i = Ok a -> index l j = Ok b ->
  (Less l i j = Ok true <->
     VariableVisibility a > VariableVisibility b \/
     (VariableVisibility a = VariableVisibility b /\ VariableID a < VariableID b)) /\
  (forall va vb : Visibility,
      (va, vb) ∈ [(Virtual, Public); (Public, Secret); (Secret, Internal);
                  (Internal, Unset); (Virtual, Internal)] ->
      VariableVisibility a = va -> VariableVisibility b = vb ->
      Less l i j = Ok true /\ Less l j i = Ok false) /\
  (VariableVisibility a = VariableVisibility b ->
   VariableID a = 5 -> VariableID b = 2 ->
   Less l j i = Ok true /\ Less l i j = Ok false).
Proof.
  intros Ha Hb.
  rewrite (Less_index l i j a b Ha Hb), (Less_index l j i b a Hb Ha).
  assert (Hchar : forall x y : Term,
             lessTerm x y = true <->
             VariableVisibility x > VariableVisibility y \/
             (VariableVisibility x = VariableVisibility y /\ VariableID x < VariableID y)).
  { intros x y. rewrite lessTerm_true. reflexivity. }
  assert (Hasym : forall x y : Term, lessTerm x y = true -> lessTerm y x = false).
  { intros x y Hxy. apply lessTerm_false. apply Hchar in Hxy.
    unfold keyLe, keyLt, orderKey. simpl. lia. }
  split; [| split].
  - split; [intros [= H] | intros H; f_equal]; apply Hchar; exact H.
  - intros va vb Hin Hva Hvb.
    assert (Hlt : lessTerm a b = true).
    { apply Hchar. left. rewrite Hva, Hvb.
      rewrite !elem_of_cons, elem_of_nil in Hin.
      unfold Virtual, Public, Secret, Internal, Unset in *.
      destruct Hin as [H | [H | [H | [H | [H | []]]]]];
        injection H as -> ->; lia. }
    rewrite Hlt, (Hasym a b Hlt). auto.
  - intros Hv Hia Hib.
    assert (Hlt : lessTerm b a = true) by (apply Hchar; right; lia).
    rewrite Hlt, (Hasym b a Hlt). auto.
Qed.

(** C10: [Less] never looks at the coefficient id.  Its result is the same
    on two LinearExpressions whose Terms agree position by position on
    visibility and variable id, and between two Terms of equal visibility
    and equal variable id it answers false both ways. *)
Theorem Less_ignores_coefficient :
  (forall (l l' : LinearExpression) (i j : Z),
      orderKey <$> l = orderKey <$> l' -> Less l i j = Less l' i j) /\
  (forall (l : LinearExpression) (i j : Z) (a b : Term),
      index l i = Ok a -> index l j = Ok b ->
      VariableVisibility a = VariableVisibility b ->
      VariableID a = VariableID b ->
      Less l i j = Ok false /\ Less l j i = Ok false).
Proof.
  split.
  - intros l l' i j Hk.
    assert (Hidx : forall n : Z,
               match index l n, index l' n with
               | Ok x, Ok y => orderKey x = orderKey y
               | Panic p, Panic q => p = q
               | _, _ => False
               end).
    { intros n. unfold index, LinearExpression in *.
      destruct (n <? 0); [reflexivity |].
      pose proof (f_equal (fun ks => ks !! Z.to_nat n) Hk) as Hn. simpl in Hn.
      rewrite !list_lookup_fmap in Hn.
      destruct (l !! Z.to_nat n), (l' !! Z.to_nat n); simpl in Hn;
        try discriminate; simpl; [| reflexivity].
      unfold orderKey in *. congruence. }
    unfold Less. pose proof (Hidx i) as Hi. pose proof (Hidx j) as Hj.
    destruct (index l i) as [a | p], (index l' i) as [a' | p']; try contradiction;
      simpl; [| congruence].
    destruct (index l j) as [b | q], (index l' j) as [b' | q']; try contradiction;
      simpl; [| congruence].
    f_equal. apply eq_true_iff_eq. rewrite !lessTerm_true. rewrite Hi, Hj. reflexivity.
  - intros l i j a b Ha Hb Hv Hid.
    rewrite (Less_index l i j a b Ha Hb), (Less_index l j i b a Hb Ha).
    split; f_equal; apply lessTerm_false; unfold keyLe, keyLt, orderKey; simpl; lia.
Qed.

(** C2 (amended): [Less] is a strict weak order on the Terms of any
    LinearExpression: irreflexive, asymmetric and transitive, and total
    between Terms that differ in visibility or variable id (exactly one of
    the two is less), while two Terms with the same visibility and variable
    id are unordered.  Two sorted arrangements of the same Terms show the
    same sequence of (visibility, variable id) pairs, and are the same
    sequence when no two different Terms among them share that pair. *)
Theorem Less_strict_weak_order :
  (forall (l : LinearExpression) (i : Z), Less l i i <> Ok true) /\
  (forall (l : LinearExpression) (i j : Z),
      Less l i j = Ok true -> Less l j i = Ok false) /\
  (forall (l : LinearExpression) (i j k : Z),
      Less l i j = Ok true -> Less l j k = Ok true -> Less l i k = Ok true) /\
  (forall (l : LinearExpression) (i j : Z) (a b : Term),
      index l i = Ok a -> index l j = Ok b ->
      (orderKey a <> orderKey b ->
       (Less l i j = Ok true /\ Less l j i = Ok false) \/
       (Less l i j = Ok false /\ Less l j i = Ok true)) /\
      (orderKey a = orderKey b ->
       Less l i j = Ok false /\ Less l j i = Ok false)) /\
  (forall l s1 s2 : LinearExpression,
      Permutation l s1 -> Permutation l s2 -> IsSorted s1 -> IsSorted s2 ->
      orderKey <$> s1 = orderKey <$> s2 /\
      ((forall a b : Term, a ∈ l -> b ∈ l -> orderKey a = orderKey b -> a = b) ->
       s1 = s2)).
Proof.
  assert (Hdec : forall a b : Term,
             (lessTerm a b = true <-> keyLt (orderKey a) (orderKey b)) /\
             (lessTerm b a = true <-> keyLt (orderKey b) (orderKey a))).
  { intros a b. split; apply lessTerm_true. }
  split; [| split; [| split; [| split]]].
  - intros l i H. apply Less_Ok_inv in H as (a & b & Ha & Hb & Hlt).
    rewrite Ha in Hb. injection Hb as <-.
    apply lessTerm_true in Hlt. unfold keyLt in Hlt. lia.
  - intros l i j H. apply Less_Ok_inv in H as (a & b & Ha & Hb & Hlt).
    rewrite (Less_index l j i b a Hb Ha). f_equal.
    apply lessTerm_false. apply lessTerm_true in Hlt.
    unfold keyLe, keyLt in *. lia.
  - intros l i j k Hij Hjk.
    apply Less_Ok_inv in Hij as (a & b & Ha & Hb & Hab).
    apply Less_Ok_inv in Hjk as (b' & c & Hb' & Hc & Hbc).
    rewrite Hb in Hb'. injection Hb' as <-.
    rewrite (Less_index l i k a c Ha Hc). f_equal.
    apply lessTerm_true in Hab, Hbc. apply lessTerm_true.
    unfold keyLt in *. lia.
  - intros l i j a b Ha Hb.
    rewrite (Less_index l i j a b Ha Hb), (Less_index l j i b a Hb Ha).
    destruct (Hdec a b) as [Hab Hba].
    destruct (orderKey a) as [va ia] eqn:Ea, (orderKey b) as [vb ib] eqn:Eb.
    unfold keyLt in Hab, Hba. simpl in Hab, Hba.
    assert (Hkey : (va, ia) = (vb, ib) <-> va = vb /\ ia = ib)
      by (split; [intros [= -> ->]; auto | intros [-> ->]; auto]).
    rewrite Hkey.
    destruct (lessTerm a b), (lessTerm b a);
      repeat match goal with
             | H : true = true <-> _ |- _ => apply proj1 in H; specialize (H eq_refl)
             | H : false = true <-> ?P |- _ =>
                 assert (~ P) by (let HP := fresh in intros HP; apply H in HP; discriminate);
                 clear H
             end;
      split; intros Hk; try lia; auto.
  - intros l s1 s2 P1 P2 S1 S2.
    assert (Hk : orderKey <$> s1 = orderKey <$> s2).
    { apply (Sorted_unique keyLe); [apply IsSorted_keys | apply IsSorted_keys |]; auto.
      apply fmap_Permutation. rewrite <- P1. exact P2. }
    split; [exact Hk |].
    intros Hinj. eapply keys_determine; eauto.
Qed.

(** ** Packing *)

Lemma testbit_above_width (x k n : Z) :
  0 <= k -> 0 <= x < 2 ^ k -> k <= n -> Z.testbit x n = false.
Proof.
  intros Hk Hx Hn. rewrite <- (Z.mod_small x (2 ^ k)) by exact Hx.
  apply Z.mod_pow2_bits_high. lia.
Qed.

Lemma land_ones_testbit (x k n : Z) :
  0 <= k -> 0 <= n ->
  Z.testbit (Z.land x (Z.ones k)) n = Z.testbit x n && (n <? k).
Proof.
  intros Hk Hn. rewrite Z.land_spec. f_equal.
  destruct (Z.ltb_spec n k).
  - apply Z.ones_spec_low. lia.
  - apply Z.ones_spec_high. lia.
Qed.

Lemma packed_testbit (c v vis n : Z) :
  0 <= n ->
  Z.testbit (Z.lor (Z.lor (Z.shiftl c shiftCoeffID) (Z.shiftl v shiftVariableID)) vis) n =
  Z.testbit c (n - shiftCoeffID) || Z.testbit v (n - shiftVariableID) || Z.testbit vis n.
Proof.
  intros Hn. rewrite !Z.lor_spec, !Z.shiftl_spec by exact Hn. reflexivity.
Qed.

Lemma validVisibility_declared (vis : Visibility) :
  validVisibility vis = true <-> vis ∈ declaredVisibilities.
Proof.
  unfold validVisibility, declaredVisibilities.
  rewrite !elem_of_cons, elem_of_nil, !orb_true_iff, !Z.eqb_eq. tauto.
Qed.

(** C3: for a declared visibility and ids within the widths of their
    fields, [Pack] succeeds and [Unpack] of the packed Term gives back the
    same coefficient id, variable id and visibility, as do the three
    projections. *)
Theorem Unpack_Pack (coeffID variableID : Z) (vis : Visibility) :
  vis ∈ declaredVisibilities ->
  0 <= coeffID < 2 ^ Z.of_N nbBitsCoeffID ->
  0 <= variableID < 2 ^ Z.of_N nbBitsVariableID ->
  exists t : Term,
    Pack coeffID variableID vis = inr t /\
    Unpack t = (coeffID, variableID, vis) /\
    CoeffID t = coeffID /\ VariableID t = variableID /\ VariableVisibility t = vis.
Proof.
  intros Hvis Hc Hv.
  assert (Hvis8 : 0 <= vis < 2 ^ 8).
  { unfold declaredVisibilities in Hvis.
    rewrite !elem_of_cons, elem_of_nil in Hvis.
    unfold Unset, Internal, Secret, Public, Virtual in Hvis. lia. }
  eexists. split.
  - unfold Pack. rewrite (proj2 (validVisibility_declared vis) Hvis). simpl.
    unfold validID.
    destruct (Z.leb_spec 0 coeffID); [| lia].
    destruct (Z.ltb_spec coeffID (2 ^ Z.of_N nbBitsCoeffID)); [| lia].
    destruct (Z.leb_spec 0 variableID); [| lia].
    destruct (Z.ltb_spec variableID (2 ^ Z.of_N nbBitsVariableID)); [| lia].
    reflexivity.
  - assert (HU : Unpack (Z.lor (Z.lor (Z.shiftl coeffID shiftCoeffID)
                                      (Z.shiftl variableID shiftVariableID)) vis)
                 = (coeffID, variableID, vis)).
    { unfold Unpack, maskCoeffID, maskVariableID, maskVariableVisibility.
      assert (Hsc : shiftCoeffID = 8 + Z.of_N nbBitsVariableID) by reflexivity.
      assert (Hsv : shiftVariableID = 8) by reflexivity.
      assert (Hnv : nbBitsVariableVisibility = 8) by reflexivity.
      rewrite Hnv.
      f_equal; [f_equal |]; apply Z.bits_inj'; intros n Hn.
      + rewrite land_ones_testbit, Z.shiftr_spec, packed_testbit by lia.
        rewrite Hsc, Hsv.
        replace (n + (8 + Z.of_N nbBitsVariableID) - (8 + Z.of_N nbBitsVariableID))
          with n by lia.
        rewrite (testbit_above_width variableID (Z.of_N nbBitsVariableID)) by lia.
        rewrite (testbit_above_width vis 8) by lia.
        rewrite !orb_false_r.
        destruct (Z.ltb_spec n (Z.of_N nbBitsCoeffID)).
        * apply andb_true_r.
        * rewrite andb_false_r. symmetry.
          apply (testbit_above_width coeffID (Z.of_N nbBitsCoeffID)); lia.
      + rewrite land_ones_testbit, Z.shiftr_spec, packed_testbit by lia.
        rewrite Hsc, Hsv.
        replace (n + 8 - 8) with n by lia.
        rewrite (testbit_above_width vis 8 (n + 8)) by lia.
        rewrite orb_false_r.
        destruct (Z.ltb_spec n (Z.of_N nbBitsVariableID)).
        * rewrite Z.testbit_neg_r by lia. apply andb_true_r.
        * rewrite andb_false_r. symmetry.
          apply (testbit_above_width variableID (Z.of_N nbBitsVariableID)); lia.
      + rewrite land_ones_testbit, packed_testbit by lia.
        rewrite Hsc, Hsv.
        destruct (Z.ltb_spec n 8).
        * rewrite !Z.testbit_neg_r by lia. apply andb_true_r.
        * rewrite andb_false_r. symmetry.
          apply (testbit_above_width vis 8); lia. }
    unfold CoeffID, VariableID, VariableVisibility. rewrite HU. auto.
Qed.

(** ** Rendering *)

Lemma append_assoc (a b c : string) : ((a ++ b) ++ c = a ++ (b ++ c))%string.
Proof.
  induction a as [| x a IH]; [reflexivity |].
  change (String x ((a ++ b) ++ c) = String x (a ++ (b ++ c)))%string.
  rewrite IH. reflexivity.
Qed.

Lemma append_nil_r (a : string) : (a ++ "" = a)%string.
Proof.
  induction a as [| x a IH]; [reflexivity |].
  change (String x (a ++ "") = String x a)%string.
  rewrite IH. reflexivity.
Qed.

(** [Term.string] against the grammar: the text of the Term is appended,
    or the method panics; before the panic on the visibility it has
    written the coefficient and the star. *)
Lemma Term_string_spec (t : Term) (coeffs : list Z) (sbb : Builder) :
  Term_string t coeffs sbb =
  match index coeffs (CoeffID t) with
  | Panic p => (Panic p, sbb)
  | Ok c =>
      match render_term_spec coeffs t with
      | Ok s => (Ok tt, (sbb ++ s)%string)
      | Panic p => (Panic p, (sbb ++ bigInt_String c ++ "*")%string)
      end
  end.
Proof.
  unfold Term_string, render_term_spec, bind, lift, WriteString.
  destruct (index coeffs (CoeffID t)) as [c | p]; simpl; [| reflexivity].
  destruct (visibilityPrefix (VariableVisibility t)) as [letter |]; simpl.
  - rewrite !append_assoc. reflexivity.
  - rewrite !append_assoc. reflexivity.
Qed.

Lemma Term_string_fst (t : Term) (coeffs : list Z) (sbb : Builder) :
  (Term_string t coeffs sbb).1 =
  match render_term_spec coeffs t with
  | Ok _ => Ok tt
  | Panic p => Panic p
  end.
Proof.
  rewrite Term_string_spec. unfold render_term_spec.
  destruct (index coeffs (CoeffID t)) as [c | p]; simpl; [| reflexivity].
  destruct (visibilityPrefix (VariableVisibility t)); reflexivity.
Qed.

Lemma Term_string_Ok (t : Term) (coeffs : list Z) (sbb : Builder) (s : string) :
  render_term_spec coeffs t = Ok s ->
  Term_string t coeffs sbb = (Ok tt, (sbb ++ s)%string).
Proof.
  intros Hs. rewrite Term_string_spec.
  destruct (index coeffs (CoeffID t)) as [c | p] eqn:Ei.
  - rewrite Hs. reflexivity.
  - unfold render_term_spec in Hs. rewrite Ei in Hs. discriminate.
Qed.

Lemma Term_string_Panic (t : Term) (coeffs : list Z) (sbb : Builder) (p : panic) :
  render_term_spec coeffs t = Panic p ->
  exists out : Builder, Term_string t coeffs sbb = (Panic p, out).
Proof.
  intros Hs. rewrite Term_string_spec.
  destruct (index coeffs (CoeffID t)) as [c | q] eqn:Ei.
  - rewrite Hs. eauto.
  - unfold render_term_spec in Hs. rewrite Ei in Hs. injection Hs as ->. eauto.
Qed.

Lemma render_terms_spec_cons_nonempty (coeffs : list Z) (t : Term)
      (rest : LinearExpression) (ss : list string) :
  render_terms_spec coeffs (t :: rest) = Ok ss ->
  exists s ss', ss = s :: ss' /\ render_term_spec coeffs t = Ok s /\
                render_terms_spec coeffs rest = Ok ss'.
Proof.
  simpl. destruct (render_term_spec coeffs t) as [s |]; simpl; [| discriminate].
  destruct (render_terms_spec coeffs rest) as [ss' |]; simpl; [| discriminate].
  intros [= <-]. eauto.
Qed.

(** [LinearExpression.string] against the grammar. *)
Lemma LinearExpression_string_spec (l : LinearExpression) (coeffs : list Z)
      (sbb : Builder) :
  match render_spec coeffs l with
  | Ok s => LinearExpression_string l coeffs sbb = (Ok tt, (sbb ++ s)%string)
  | Panic p => (LinearExpression_string l coeffs sbb).1 = Panic p
  end.
Proof.
  unfold render_spec. revert sbb.
  induction l as [| t rest IH]; intros sbb.
  - simpl. unfold ret. rewrite append_nil_r. reflexivity.
  - cbn [render_terms_spec].
    destruct (render_term_spec coeffs t) as [s | p] eqn:Es; cbn [obind].
    + assert (Hstep : LinearExpression_string (t :: rest) coeffs sbb =
                      LinearExpression_string rest coeffs
                        match rest with
                        | [] => (sbb ++ s)%string
                        | _ :: _ => ((sbb ++ s) ++ " + ")%string
                        end).
      { cbn [LinearExpression_string]. unfold bind at 1.
        rewrite (Term_string_Ok t coeffs sbb s Es).
        destruct rest; reflexivity. }
      rewrite Hstep. clear Hstep.
      destruct rest as [| t' rest'].
      * simpl. unfold ret. reflexivity.
      * specialize (IH ((sbb ++ s) ++ " + ")%string).
        destruct (render_terms_spec coeffs (t' :: rest')) as [ss | p] eqn:Er;
          cbn [obind] in IH |- *; [| exact IH].
        apply render_terms_spec_cons_nonempty in Er as (s' & ss' & -> & _ & _).
        rewrite IH. cbn [join_spec]. rewrite !append_assoc. reflexivity.
    + destruct (Term_string_Panic t coeffs sbb p Es) as [out Hout].
      cbn [LinearExpression_string]. unfold bind at 1. rewrite Hout. reflexivity.
Qed.

Lemma LinearExpression_string_then {A : Type} (l : LinearExpression)
      (coeffs : list Z) (k : M Builder A) (sbb : Builder) :
  (LinearExpression_string l coeffs ;; k)%monad sbb =
  match render_spec coeffs l with
  | Ok s => k (sbb ++ s)%string
  | Panic p => (Panic p, (LinearExpression_string l coeffs sbb).2)
  end.
Proof.
  unfold bind. pose proof (LinearExpression_string_spec l coeffs sbb) as H.
  destruct (render_spec coeffs l) as [s | p].
  - rewrite H. reflexivity.
  - destruct (LinearExpression_string l coeffs sbb) as [o st].
    simpl in H. subst o. reflexivity.
Qed.

Lemma WriteString_then {A : Type} (s : string) (k : M Builder A) (sbb : Builder) :
  (WriteString s ;; k)%monad sbb = k (sbb ++ s)%string.
Proof. reflexivity. Qed.

Lemma field_then {A B C : Type} (a : A) (f : A -> B) (k : B -> M Builder C)
      (sbb : Builder) :
  (x <~ lift (field (Some a) f); k x)%monad sbb = k (f a) sbb.
Proof. reflexivity. Qed.

Lemma R1C_String_nil (coeffs : list Z) :
  R1C_String None coeffs = Panic NilDereference.
Proof. reflexivity. Qed.

Lemma R1C_String_spec (r1c : R1C) (coeffs : list Z) :
  R1C_String (Some r1c) coeffs = render_R1C_spec coeffs r1c.
Proof.
  unfold R1C_String, render_R1C_spec.
  rewrite WriteString_then, field_then, LinearExpression_string_then.
  destruct (render_spec coeffs (L r1c)) as [sl | p]; [| reflexivity].
  rewrite WriteString_then, field_then, LinearExpression_string_then.
  destruct (render_spec coeffs (R r1c)) as [sr | p]; [| reflexivity].
  rewrite WriteString_then, field_then, LinearExpression_string_then.
  destruct (render_spec coeffs (O r1c)) as [so | p]; [| reflexivity].
  unfold WriteString. cbn [obind]. f_equal.
  rewrite !append_assoc. reflexivity.
Qed.

Lemma index_out_of_range {A : Type} (s : list A) (i : Z) :
  ~ 0 <= i < Z.of_nat (length s) -> index s i = Panic IndexOutOfRange.
Proof.
  intros Hi. unfold index. destruct (Z.ltb_spec i 0); [reflexivity |].
  rewrite (lookup_ge_None_2 s (Z.to_nat i)) by lia. reflexivity.
Qed.

Lemma index_Panic_inv {A : Type} (s : list A) (i : Z) (p : panic) :
  index s i = Panic p -> p = IndexOutOfRange /\ ~ 0 <= i < Z.of_nat (length s).
Proof.
  unfold index. destruct (Z.ltb_spec i 0).
  - intros [= <-]. split; [reflexivity | lia].
  - destruct (s !! Z.to_nat i) eqn:E; [discriminate |].
    intros [= <-]. split; [reflexivity |].
    apply lookup_ge_None_1 in E. lia.
Qed.

Lemma visibilityPrefix_None (v : Visibility) :
  visibilityPrefix v = None <-> v ∉ declaredVisibilities.
Proof.
  unfold visibilityPrefix, declaredVisibilities.
  rewrite !not_elem_of_cons.
  unfold Unset, Internal, Secret, Public, Virtual.
  repeat match goal with
         | |- context [?a =? ?b] => destruct (Z.eqb_spec a b)
         end;
    split; intros H; try discriminate; try reflexivity; try lia.
  repeat split; try lia. apply not_elem_of_nil.
Qed.

(** Why the rendering of one Term fails. *)
Lemma render_term_spec_Panic_inv (coeffs : list Z) (t : Term) (p : panic) :
  render_term_spec coeffs t = Panic p ->
  (p = IndexOutOfRange /\ ~ 0 <= CoeffID t < Z.of_nat (length coeffs)) \/
  (p = PanicString "not implemented" /\
   VariableVisibility t ∉ declaredVisibilities).
Proof.
  unfold render_term_spec.
  destruct (index coeffs (CoeffID t)) as [c | q] eqn:Ei; simpl.
  - destruct (visibilityPrefix (VariableVisibility t)) eqn:Ev; [discriminate |].
    intros [= <-]. right. split; [reflexivity |].
    apply visibilityPrefix_None. exact Ev.
  - intros [= <-]. left. apply index_Panic_inv. exact Ei.
Qed.

(** The rendering of a LinearExpression succeeds when each Term does, and
    otherwise fails the way one of its Terms does. *)
Lemma render_terms_spec_cases (coeffs : list Z) (l : LinearExpression) :
  match render_terms_spec coeffs l with
  | Ok _ => Forall (fun u => exists s, render_term_spec coeffs u = Ok s) l
  | Panic p => Exists (fun u => render_term_spec coeffs u = Panic p) l
  end.
Proof.
  induction l as [| t rest IH]; simpl.
  - constructor.
  - destruct (render_term_spec coeffs t) as [s | p] eqn:Es; simpl.
    + destruct (render_terms_spec coeffs rest) as [ss | p]; simpl.
      * constructor; eauto.
      * apply Exists_cons_tl. exact IH.
    + apply Exists_cons_hd. exact Es.
Qed.

Lemma render_spec_failing_term (coeffs : list Z) (l : LinearExpression)
      (t : Term) (p : panic) :
  t ∈ l -> render_term_spec coeffs t = Panic p ->
  exists q u, render_spec coeffs l = Panic q /\ u ∈ l /\
              render_term_spec coeffs u = Panic q.
Proof.
  intros Hin Ht. pose proof (render_terms_spec_cases coeffs l) as H.
  unfold render_spec.
  destruct (render_terms_spec coeffs l) as [ss | q].
  - rewrite Forall_forall in H. destruct (H t Hin) as [s Hs]. congruence.
  - apply Exists_exists in H as (u & Hu & Hq). exists q, u. auto.
Qed.

Lemma render_R1C_spec_failing (coeffs : list Z) (r1c : R1C) (l : LinearExpression)
      (q : panic) :
  l = L r1c \/ l = R r1c \/ l = O r1c ->
  render_spec coeffs l = Panic q ->
  exists (q' : panic) (l' : LinearExpression),
    render_R1C_spec coeffs r1c = Panic q' /\
    (l' = L r1c \/ l' = R r1c \/ l' = O r1c) /\
    render_spec coeffs l' = Panic q'.
Proof.
  intros Hl Hq. unfold render_R1C_spec.
  destruct (render_spec coeffs (L r1c)) as [sl | pl] eqn:EL; simpl;
    [| exists pl, (L r1c); auto].
  destruct (render_spec coeffs (R r1c)) as [sr | pr] eqn:ER; simpl;
    [| exists pr, (R r1c); auto].
  destruct (render_spec coeffs (O r1c)) as [so | po] eqn:EO; simpl;
    [| exists po, (O r1c); auto].
  destruct Hl as [-> | [-> | ->]]; congruence.
Qed.

Lemma LinearExpression_string_Ok_inv (l : LinearExpression) (coeffs : list Z)
      (s : string) :
  LinearExpression_string l coeffs EmptyString = (Ok tt, s) ->
  render_spec coeffs l = Ok s.
Proof.
  intros H. pose proof (LinearExpression_string_spec l coeffs EmptyString) as Hs.
  destruct (render_spec coeffs l) as [s' | p].
  - rewrite H in Hs. change ("" ++ s')%string with s' in Hs. congruence.
  - rewrite H in Hs. discriminate.
Qed.

Lemma Term_string_Unpack (t t' : Term) (coeffs : list Z) (sbb : Builder) :
  Unpack t = Unpack t' -> Term_string t coeffs sbb = Term_string t' coeffs sbb.
Proof.
  intros H. unfold Term_string, CoeffID, VariableID, VariableVisibility.
  rewrite H. reflexivity.
Qed.

(** C4: [R1C.String] returns ["L[" sl "] * R[" sr "] = O[" so "]"] where
    [sl], [sr] and [so] are what [LinearExpression.string] writes for L, R
    and O, and what it writes for a LinearExpression is the texts of its
    Terms joined by [" + "].  For L = R = [(coeffId 0, varId 1, Public)],
    O = [(coeffId 1, varId 2, Internal)] and the table [1, 1] the result is
    ["L[1*p1] * R[1*p1] = O[1*i2]"]. *)
Theorem R1C_String_format :
  (forall (r1c : R1C) (coeffs : list Z) (sl sr so : string),
      LinearExpression_string (L r1c) coeffs EmptyString = (Ok tt, sl) ->
      LinearExpression_string (R r1c) coeffs EmptyString = (Ok tt, sr) ->
      LinearExpression_string (O r1c) coeffs EmptyString = (Ok tt, so) ->
      R1C_String (Some r1c) coeffs =
      Ok ("L[" ++ sl ++ "] * R[" ++ sr ++ "] = O[" ++ so ++ "]")%string) /\
  (forall (l : LinearExpression) (coeffs : list Z) (ss : list string),
      render_terms_spec coeffs l = Ok ss ->
      LinearExpression_string l coeffs EmptyString = (Ok tt, join_spec " + " ss)) /\
  (forall t1 t2 t3 : Term,
      Unpack t1 = (0, 1, Public) ->
      Unpack t2 = (0, 1, Public) ->
      Unpack t3 = (1, 2, Internal) ->
      R1C_String (Some (mkR1C [t1] [t2] [t3])) [1; 1] =
      Ok "L[1*p1] * R[1*p1] = O[1*i2]"%string).
Proof.
  split; [| split].
  - intros r1c coeffs sl sr so HL HR HO.
    rewrite R1C_String_spec. unfold render_R1C_spec.
    rewrite (LinearExpression_string_Ok_inv _ _ _ HL),
            (LinearExpression_string_Ok_inv _ _ _ HR),
            (LinearExpression_string_Ok_inv _ _ _ HO).
    reflexivity.
  - intros l coeffs ss Hss.
    pose proof (LinearExpression_string_spec l coeffs EmptyString) as H.
    unfold render_spec in H. rewrite Hss in H. exact H.
  - intros t1 t2 t3 H1 H2 H3.
    rewrite R1C_String_spec.
    unfold render_R1C_spec, render_spec. simpl.
    unfold render_term_spec, CoeffID, VariableID, VariableVisibility.
    rewrite H1, H2, H3. reflexivity.
Qed.

(** C5: [Term.string] writes [<coefficient value>*<prefix><variableId>]
    with the prefix i, p, s, v or u for Internal, Public, Secret, Virtual
    or Unset; [LinearExpression.string] writes the texts of the Terms
    joined by [" + "], and what it writes depends only on the unpacked
    Terms and the table.  For the table [3, 7] and the expression
    [(coeffId 0, varId 5, Internal), (coeffId 1, varId 2, Public)] it
    writes exactly ["3*i5 + 7*p2"]. *)
Theorem LinearExpression_string_format :
  (forall (t : Term) (coeffs : list Z) (c : Z) (sbb : Builder)
          (v : Visibility) (letter : string),
      index coeffs (CoeffID t) = Ok c ->
      (v, letter) ∈ [(Internal, "i"); (Public, "p"); (Secret, "s");
                      (Virtual, "v"); (Unset, "u")]%string ->
      VariableVisibility t = v ->
      Term_string t coeffs sbb =
      (Ok tt, sbb ++ bigInt_String c ++ "*" ++ letter ++ Itoa (VariableID t))%string) /\
  (forall (l : LinearExpression) (coeffs : list Z) (ss : list string) (sbb : Builder),
      render_terms_spec coeffs l = Ok ss ->
      LinearExpression_string l coeffs sbb = (Ok tt, sbb ++ join_spec " + " ss)%string) /\
  (forall (l l' : LinearExpression) (coeffs : list Z) (sbb : Builder),
      Unpack <$> l = Unpack <$> l' ->
      LinearExpression_string l coeffs sbb = LinearExpression_string l' coeffs sbb) /\
  (forall (t1 t2 : Term) (sbb : Builder),
      Unpack t1 = (0, 5, Internal) ->
      Unpack t2 = (1, 2, Public) ->
      LinearExpression_string [t1; t2] [3; 7] sbb =
      (Ok tt, sbb ++ "3*i5 + 7*p2")%string).
Proof.
  split; [| split; [| split]].
  - intros t coeffs c sbb v letter Hc Hin Hv.
    apply Term_string_Ok. unfold render_term_spec. rewrite Hc, Hv. simpl.
    rewrite !elem_of_cons, elem_of_nil in Hin.
    destruct Hin as [H | [H | [H | [H | [H | []]]]]];
      injection H as -> ->; reflexivity.
  - intros l coeffs ss sbb Hss.
    pose proof (LinearExpression_string_spec l coeffs sbb) as H.
    unfold render_spec in H. rewrite Hss in H. exact H.
  - intros l. induction l as [| t rest IH]; intros [| t' rest'] coeffs sbb E;
      try discriminate; [reflexivity |].
    change (Unpack t :: (Unpack <$> rest) = Unpack t' :: (Unpack <$> rest')) in E.
    assert (Et : Unpack t = Unpack t') by congruence.
    assert (Er : Unpack <$> rest = Unpack <$> rest') by congruence.
    cbn [LinearExpression_string]. unfold bind at 1 3.
    rewrite (Term_string_Unpack t t' coeffs sbb Et).
    destruct (Term_string t' coeffs sbb) as [[[] | p] st]; [| reflexivity].
    unfold bind.
    assert (Hsep : forall st0 : Builder,
               match rest with [] => ret tt | _ :: _ => WriteString " + " end st0 =
               match rest' with [] => ret tt | _ :: _ => WriteString " + " end st0).
    { intros st0. destruct rest, rest'; try discriminate; reflexivity. }
    rewrite Hsep.
    destruct (match rest' with [] => ret tt | _ :: _ => WriteString " + " end st)
      as [[[] | p] st1]; [| reflexivity].
    apply IH. exact Er.
  - intros t1 t2 sbb H1 H2.
    pose proof (LinearExpression_string_spec [t1; t2] [3; 7] sbb) as H.
    unfold render_spec in H. simpl in H.
    unfold render_term_spec, CoeffID, VariableID, VariableVisibility in H.
    rewrite H1, H2 in H. exact H.
Qed.

Lemma LinearExpression_string_Panic (l : LinearExpression) (coeffs : list Z)
      (sbb : Builder) (p : panic) :
  render_spec coeffs l = Panic p ->
  (LinearExpression_string l coeffs sbb).1 = Panic p.
Proof.
  intros H. pose proof (LinearExpression_string_spec l coeffs sbb) as Hs.
  rewrite H in Hs. exact Hs.
Qed.

(** C6 (amended): rendering a Term whose visibility is none of the five
    declared values never returns.  [Term.string] panics with
    "not implemented", having written the coefficient and the star but no
    prefix letter, when the coefficient id has an entry in the table, and
    with the index error before writing anything when it has none; the
    panic reaches the caller of [LinearExpression.string] and of
    [R1C.String] for every expression and constraint that holds the
    Term. *)
Theorem Term_string_undeclared_visibility (t : Term) (coeffs : list Z) (sbb : Builder) :
  VariableVisibility t ∉ declaredVisibilities ->
  (forall c : Z,
      index coeffs (CoeffID t) = Ok c ->
      Term_string t coeffs sbb =
      (Panic (PanicString "not implemented"), sbb ++ bigInt_String c ++ "*")%string) /\
  (~ 0 <= CoeffID t < Z.of_nat (length coeffs) ->
   Term_string t coeffs sbb = (Panic IndexOutOfRange, sbb)) /\
  (forall (l : LinearExpression) (sbb' : Builder),
      t ∈ l -> exists p : panic, (LinearExpression_string l coeffs sbb').1 = Panic p) /\
  (forall r1c : R1C,
      t ∈ L r1c \/ t ∈ R r1c \/ t ∈ O r1c ->
      exists p : panic, R1C_String (Some r1c) coeffs = Panic p).
Proof.
  intros Hvis. apply visibilityPrefix_None in Hvis.
  assert (Hfail : exists p, render_term_spec coeffs t = Panic p).
  { unfold render_term_spec. destruct (index coeffs (CoeffID t)); simpl; [| eauto].
    rewrite Hvis. eauto. }
  assert (Hlin : forall l, t ∈ l -> exists q, render_spec coeffs l = Panic q).
  { intros l Hin. destruct Hfail as [p Hp].
    destruct (render_spec_failing_term coeffs l t p Hin Hp) as (q & _ & Hq & _).
    eauto. }
  split; [| split; [| split]].
  - intros c Hc. rewrite Term_string_spec, Hc.
    unfold render_term_spec. rewrite Hc, Hvis. reflexivity.
  - intros Hout. rewrite Term_string_spec.
    rewrite (index_out_of_range coeffs (CoeffID t) Hout). reflexivity.
  - intros l sbb' Hin. destruct (Hlin l Hin) as [q Hq]. exists q.
    apply LinearExpression_string_Panic. exact Hq.
  - intros r1c Hin. rewrite R1C_String_spec.
    assert (Hl : exists l q, (l = L r1c \/ l = R r1c \/ l = O r1c) /\
                            render_spec coeffs l = Panic q).
    { destruct Hin as [H | [H | H]]; destruct (Hlin _ H) as [q Hq];
        [exists (L r1c) | exists (R r1c) | exists (O r1c)]; exists q; auto. }
    destruct Hl as (l & q & Hl & Hq).
    destruct (render_R1C_spec_failing coeffs r1c l q Hl Hq) as (q' & _ & Hq' & _).
    eauto.
Qed.

(** C7 (amended): when the coefficient id of a Term has no entry in the
    table, [Term.string] panics with the run-time index error before
    writing anything; the failure is a panic, as the one of the visibility
    switch is, and no error value is returned.  [LinearExpression.string]
    and [R1C.String] never return on an expression or constraint that
    holds the Term: they panic, with the index error when every other Term
    has a declared visibility, and otherwise with the index error or with
    the "not implemented" of a Term rendered earlier. *)
Theorem Term_string_coefficient_out_of_range (t : Term) (coeffs : list Z) (sbb : Builder) :
  ~ 0 <= CoeffID t < Z.of_nat (length coeffs) ->
  Term_string t coeffs sbb = (Panic IndexOutOfRange, sbb) /\
  (forall (l : LinearExpression) (sbb' : Builder),
      t ∈ l ->
      exists p : panic,
        (LinearExpression_string l coeffs sbb').1 = Panic p /\
        (p = IndexOutOfRange \/ p = PanicString "not implemented")) /\
  (forall (l : LinearExpression) (sbb' : Builder),
      t ∈ l ->
      (forall u : Term, u ∈ l -> u <> t -> VariableVisibility u ∈ declaredVisibilities) ->
      (LinearExpression_string l coeffs sbb').1 = Panic IndexOutOfRange) /\
  (forall r1c : R1C,
      t ∈ L r1c \/ t ∈ R r1c \/ t ∈ O r1c ->
      exists p : panic,
        R1C_String (Some r1c) coeffs = Panic p /\
        (p = IndexOutOfRange \/ p = PanicString "not implemented")) /\
  (forall r1c : R1C,
      t ∈ L r1c \/ t ∈ R r1c \/ t ∈ O r1c ->
      (forall u : Term,
          u ∈ L r1c \/ u ∈ R r1c \/ u ∈ O r1c -> u <> t ->
          VariableVisibility u ∈ declaredVisibilities) ->
      R1C_String (Some r1c) coeffs = Panic IndexOutOfRange).
Proof.
  intros Hout.
  assert (Hidx : index coeffs (CoeffID t) = Panic IndexOutOfRange)
    by (apply index_out_of_range; exact Hout).
  assert (Hfail : render_term_spec coeffs t = Panic IndexOutOfRange).
  { unfold render_term_spec. rewrite Hidx. reflexivity. }
  assert (Hkind : forall l q,
             render_spec coeffs l = Panic q ->
             exists u, u ∈ l /\ render_term_spec coeffs u = Panic q /\
                       (q = IndexOutOfRange \/
                        (q = PanicString "not implemented" /\
                         VariableVisibility u ∉ declaredVisibilities))).
  { intros l q Hq. pose proof (render_terms_spec_cases coeffs l) as Hc.
    unfold render_spec in Hq.
    destruct (render_terms_spec coeffs l) as [ss | q0]; [discriminate |].
    simpl in Hq. injection Hq as ->.
    apply Exists_exists in Hc as (u & Hu & Huq). exists u.
    split; [exact Hu |]. split; [exact Huq |].
    destruct (render_term_spec_Panic_inv coeffs u q Huq) as [[-> _] | [-> Hbad]]; auto. }
  assert (Hany : forall l, t ∈ l -> exists q, render_spec coeffs l = Panic q).
  { intros l Hin.
    destruct (render_spec_failing_term coeffs l t _ Hin Hfail) as (q & _ & Hq & _).
    eauto. }
  assert (Hlin : forall l,
             t ∈ l ->
             (forall u, u ∈ l -> u <> t -> VariableVisibility u ∈ declaredVisibilities) ->
             render_spec coeffs l = Panic IndexOutOfRange).
  { intros l Hin Hdecl. destruct (Hany l Hin) as [q Hq]. rewrite Hq. f_equal.
    destruct (Hkind l q Hq) as (u & Hu & Huq & [-> | [-> Hbad]]); [reflexivity |].
    destruct (Z.eq_dec u t) as [-> | Hne]; [congruence |].
    exfalso. apply Hbad. apply Hdecl; assumption. }
  assert (Hr1c : forall r1c : R1C,
             t ∈ L r1c \/ t ∈ R r1c \/ t ∈ O r1c ->
             exists q l', R1C_String (Some r1c) coeffs = Panic q /\
                          (l' = L r1c \/ l' = R r1c \/ l' = O r1c) /\
                          render_spec coeffs l' = Panic q).
  { intros r1c Hin. rewrite R1C_String_spec.
    assert (Hl : exists l, (l = L r1c \/ l = R r1c \/ l = O r1c) /\ t ∈ l).
    { destruct Hin as [H | [H | H]];
        [exists (L r1c) | exists (R r1c) | exists (O r1c)]; auto. }
    destruct Hl as (l & Hl & Hinl). destruct (Hany l Hinl) as [q Hq].
    destruct (render_R1C_spec_failing coeffs r1c l q Hl Hq) as (q' & l' & Hq' & Hl' & Hql').
    exists q', l'. auto. }
  split; [| split; [| split; [| split]]].
  - rewrite Term_string_spec, Hidx. reflexivity.
  - intros l sbb' Hin. destruct (Hany l Hin) as [q Hq]. exists q.
    split; [apply LinearExpression_string_Panic; exact Hq |].
    destruct (Hkind l q Hq) as (u & _ & _ & [-> | [-> _]]); auto.
  - intros l sbb' Hin Hdecl. apply LinearExpression_string_Panic. auto.
  - intros r1c Hin. destruct (Hr1c r1c Hin) as (q & l' & Hq & _ & Hql'). exists q.
    split; [exact Hq |].
    destruct (Hkind l' q Hql') as (u & _ & _ & [-> | [-> _]]); auto.
  - intros r1c Hin Hdecl. destruct (Hr1c r1c Hin) as (q & l' & Hq & Hl' & Hql').
    rewrite Hq. f_equal.
    destruct (Hkind l' q Hql') as (u & Hu & Huq & [-> | [-> Hbad]]); [reflexivity |].
    destruct (Z.eq_dec u t) as [-> | Hne]; [congruence |].
    exfalso. apply Hbad. apply Hdecl; [| exact Hne].
    destruct Hl' as [-> | [-> | ->]]; auto.
Qed.

(** ** Clone and the store *)

Lemma updateBacking_frame (l : slice) (f : list Term -> list Term) (h : store) (b : nat) :
  array l <> Some b -> updateBacking l f h !! b = h !! b.
Proof.
  intros Hne. unfold updateBacking. destruct (array l) as [p |]; [| reflexivity].
  apply lookup_alter_ne. congruence.
Qed.

Lemma elements_same_array (h h' : store) (l : slice) :
  (forall b : nat, array l = Some b -> h' !! b = h !! b) ->
  elements h' l = elements h l.
Proof.
  intros H. unfold elements, backing.
  destruct (array l) as [p |]; [rewrite (H p eq_refl) |]; reflexivity.
Qed.

Lemma elements_length (h : store) (l : slice) :
  valid h l -> length (elements h l) = len l.
Proof.
  unfold valid, elements, backing. destruct (array l) as [p |].
  - intros (a & Ha & Hlen & Hcap). rewrite Ha.
    rewrite length_take, length_drop. lia.
  - intros [-> _]. reflexivity.
Qed.

Lemma fresh_not_allocated (h : store) (b : nat) :
  is_Some (h !! b) -> fresh (dom h) <> b.
Proof.
  intros Hb Heq. apply (is_fresh (dom h)). rewrite Heq.
  apply elem_of_dom. exact Hb.
Qed.

Lemma valid_allocated (h : store) (l : slice) (b : nat) :
  valid h l -> array l = Some b -> is_Some (h !! b).
Proof.
  unfold valid. intros Hv Hb. rewrite Hb in Hv.
  destruct Hv as (a & Ha & _). rewrite Ha. eauto.
Qed.

(** A write through a slice changes no other array. *)
Lemma storeAt_frame (l : slice) (i : Z) (t : Term) (h : store) (b : nat) :
  array l <> Some b -> (storeAt l i t h).2 !! b = h !! b.
Proof.
  intros Hne. unfold storeAt. destruct (index (elements h l) i); simpl; [| reflexivity].
  apply updateBacking_frame. exact Hne.
Qed.

Lemma Swap_frame (l : slice) (i j : Z) (h : store) (b : nat) :
  array l <> Some b -> (Swap l i j h).2 !! b = h !! b.
Proof.
  intros Hne. unfold Swap, bind, load.
  destruct (index (elements h l) j) as [tj |]; simpl; [| reflexivity].
  destruct (index (elements h l) i) as [ti |]; simpl; [| reflexivity].
  pose proof (storeAt_frame l i tj h b Hne) as H1.
  destruct (storeAt l i tj h) as [[[] | p] h1]; simpl in *; [| exact H1].
  rewrite (storeAt_frame l j ti h1 b Hne). exact H1.
Qed.

Lemma append_frame (l : slice) (t : Term) (h : store) (b : nat) :
  is_Some (h !! b) -> array l <> Some b ->
  exists l' h', append l t h = (Ok l', h') /\ h' !! b = h !! b /\ array l' <> Some b.
Proof.
  intros Hb Hne. unfold append. destruct (len l <? cap l)%nat.
  - eexists _, _. split; [reflexivity |]. split; [| exact Hne].
    apply updateBacking_frame. exact Hne.
  - eexists _, _. split; [reflexivity |].
    pose proof (fresh_not_allocated h b Hb) as Hf.
    split; [apply lookup_insert_ne; exact Hf | simpl; congruence].
Qed.

Lemma mutate_frame (l : slice) (m : mutation) (h : store) (b : nat) :
  is_Some (h !! b) -> array l <> Some b ->
  (mutate l m h).2 !! b = h !! b /\
  (forall l' : slice, (mutate l m h).1 = Ok l' -> array l' <> Some b).
Proof.
  intros Hb Hne. destruct m as [i j | i t | t]; simpl.
  - pose proof (Swap_frame l i j h b Hne) as H. unfold bind, ret.
    destruct (Swap l i j h) as [[[] | p] h1]; simpl in *;
      (split; [exact H |]); intros l' Heq; [| discriminate].
    injection Heq as <-. exact Hne.
  - pose proof (storeAt_frame l i t h b Hne) as H. unfold bind, ret.
    destruct (storeAt l i t h) as [[[] | p] h1]; simpl in *;
      (split; [exact H |]); intros l' Heq; [| discriminate].
    injection Heq as <-. exact Hne.
  - destruct (append_frame l t h b Hb Hne) as (l' & h' & -> & Hh & Hl). simpl.
    split; [exact Hh |]. intros l'' [= <-]. exact Hl.
Qed.

Lemma mutateAll_frame (ms : list mutation) (l : slice) (h : store) (b : nat) :
  is_Some (h !! b) -> array l <> Some b -> (mutateAll l ms h).2 !! b = h !! b.
Proof.
  revert l h. induction ms as [| m rest IH]; intros l h Hb Hne; simpl.
  - reflexivity.
  - unfold bind. destruct (mutate_frame l m h b Hb Hne) as [Hh Hl].
    destruct (mutate l m h) as [[l' | p] h1]; simpl in *; [| exact Hh].
    rewrite IH; [exact Hh | rewrite Hh; exact Hb | apply Hl; reflexivity].
Qed.

Lemma Clone_run (h : store) (e : slice) :
  valid h e ->
  let p := fresh (dom h) in
  Clone e h = (Ok (mkSlice (Some p) 0 (len e) (len e)), <[p := elements h e]> h).
Proof.
  intros Hv p.
  assert (Hp : array e <> Some p).
  { intros Hb. apply (fresh_not_allocated h p); [| reflexivity].
    eapply valid_allocated; eauto. }
  unfold Clone, bind, make, copy, ret, updateBacking. fold p. simpl. f_equal.
  assert (He : elements (<[p := replicate (len e) 0]> h) e = elements h e).
  { apply elements_same_array. intros b Hb. apply lookup_insert_ne. congruence. }
  rewrite He. apply map_eq. intros k.
  destruct (decide (k = p)) as [-> | Hk].
  - rewrite lookup_alter_eq, !lookup_insert_eq. simpl. f_equal.
    rewrite Nat.min_id, drop_replicate, Nat.sub_diag. simpl.
    rewrite app_nil_r. apply take_ge. rewrite (elements_length h e Hv). lia.
  - rewrite lookup_alter_ne by congruence.
    rewrite !lookup_insert_ne by congruence. reflexivity.
Qed.

(** C8: [Clone] returns a slice over a newly allocated array that shows
    the same Terms as the original in the same order, and leaves the
    original as it was; whatever run of swaps, assignments and appends is
    then made through the clone, the original still shows its Terms, and
    whatever run is made through the original, the clone still shows
    them. *)
Theorem Clone_independent (h : store) (e : slice) :
  valid h e ->
  exists (c : slice) (h1 : store) (p : nat),
    Clone e h = (Ok c, h1) /\
    array c = Some p /\ h !! p = None /\
    elements h1 c = elements h e /\
    elements h1 e = elements h e /\
    (forall ms : list mutation, elements (mutateAll c ms h1).2 e = elements h e) /\
    (forall ms : list mutation, elements (mutateAll e ms h1).2 c = elements h e).
Proof.
  intros Hv. pose proof (Clone_run h e Hv) as Hrun. simpl in Hrun.
  set (p := fresh (dom h)) in *.
  set (c := mkSlice (Some p) 0 (len e) (len e)) in *.
  set (h1 := <[p := elements h e]> h) in *.
  assert (Hfresh : h !! p = None).
  { apply not_elem_of_dom. apply is_fresh. }
  assert (Hp : array e <> Some p).
  { intros Hb. destruct (valid_allocated h e p Hv Hb) as [a Ha]. congruence. }
  assert (Hc : elements h1 c = elements h e).
  { unfold elements at 1. unfold backing, h1, c. simpl. rewrite lookup_insert_eq.
    rewrite drop_0. apply take_ge. rewrite (elements_length h e Hv). lia. }
  assert (He : elements h1 e = elements h e).
  { apply elements_same_array. intros b Hb. unfold h1. apply lookup_insert_ne. congruence. }
  exists c, h1, p. repeat split; auto.
  - intros ms. rewrite <- He. apply elements_same_array. intros b Hb.
    apply mutateAll_frame.
    + unfold h1. rewrite lookup_insert_ne by congruence.
      eapply valid_allocated; eauto.
    + unfold c. simpl. congruence.
  - intros ms. rewrite <- Hc. apply elements_same_array. intros b Hb.
    unfold c in Hb. simpl in Hb. injection Hb as <-.
    apply mutateAll_frame.
    + unfold h1. rewrite lookup_insert_eq. eauto.
    + exact Hp.
Qed.

(** * Further properties *)

(** ** Swap *)

Lemma alter_allocated (h : store) (p : nat) (a : list Term)
      (f : list Term -> list Term) :
  h !! p = Some a -> alter f p h = <[p := f a]> h.
Proof.
  intros Ha. apply map_eq. intros k. destruct (decide (k = p)) as [-> | Hk].
  - rewrite lookup_alter_eq, lookup_insert_eq, Ha. reflexivity.
  - rewrite lookup_alter_ne, lookup_insert_ne by congruence. reflexivity.
Qed.

Lemma elements_window (h : store) (l : slice) (p : nat) (a : list Term) :
  array l = Some p -> h !! p = Some a ->
  elements h l = take (len l) (drop (offset l) a).
Proof. intros Hp Ha. unfold elements, backing. rewrite Hp, Ha. reflexivity. Qed.

Lemma window_insert (a : list Term) (off n i : nat) (t : Term) :
  (i < n)%nat ->
  take n (drop off (<[(off + i)%nat := t]> a)) = <[i := t]> (take n (drop off a)).
Proof.
  intros Hi. rewrite drop_insert_ge by lia.
  replace (off + i - off)%nat with i by lia.
  apply take_insert_lt. exact Hi.
Qed.

Lemma valid_in_range (h : store) (l : slice) (i : Z) :
  valid h l -> 0 <= i < Z.of_nat (len l) ->
  exists (p : nat) (a : list Term),
    array l = Some p /\ h !! p = Some a /\ (offset l + len l <= length a)%nat.
Proof.
  unfold valid. intros Hv Hi. destruct (array l) as [p |].
  - destruct Hv as (a & Ha & Hlen & Hcap). exists p, a. repeat split; auto. lia.
  - destruct Hv as [Hlen _]. lia.
Qed.

Lemma storeAt_run (l : slice) (i : Z) (t : Term) (h : store) (p : nat) (a : list Term) :
  array l = Some p -> h !! p = Some a -> (offset l + len l <= length a)%nat ->
  0 <= i < Z.of_nat (len l) ->
  storeAt l i t h = (Ok tt, <[p := <[(offset l + Z.to_nat i)%nat := t]> a]> h).
Proof.
  intros Hp Ha Hlen Hi. unfold storeAt.
  destruct (index_in_range (elements h l) i) as [x Hx].
  { rewrite (elements_window h l p a Hp Ha), length_take, length_drop. lia. }
  rewrite Hx. unfold updateBacking. rewrite Hp.
  rewrite (alter_allocated h p a _ Ha). reflexivity.
Qed.

Lemma Swap_run (l : slice) (i j : Z) (h : store) (p : nat) (a : list Term) :
  array l = Some p -> h !! p = Some a -> (offset l + len l <= length a)%nat ->
  0 <= i < Z.of_nat (len l) -> 0 <= j < Z.of_nat (len l) ->
  exists ti tj : Term,
    index (elements h l) i = Ok ti /\ index (elements h l) j = Ok tj /\
    Swap l i j h =
    (Ok tt, <[p := <[(offset l + Z.to_nat j)%nat := ti]>
                     (<[(offset l + Z.to_nat i)%nat := tj]> a)]> h).
Proof.
  intros Hp Ha Hlen Hi Hj.
  assert (Hel : length (elements h l) = len l).
  { rewrite (elements_window h l p a Hp Ha), length_take, length_drop. lia. }
  destruct (index_in_range (elements h l) i) as [ti Hti]; [lia |].
  destruct (index_in_range (elements h l) j) as [tj Htj]; [lia |].
  exists ti, tj. split; [exact Hti |]. split; [exact Htj |].
  unfold Swap, bind, load. rewrite Htj, Hti.
  rewrite (storeAt_run l i tj h p a Hp Ha Hlen Hi).
  rewrite (storeAt_run l j ti _ p (<[(offset l + Z.to_nat i)%nat := tj]> a) Hp).
  - rewrite insert_insert_eq. reflexivity.
  - apply lookup_insert_eq.
  - rewrite length_insert. exact Hlen.
  - exact Hj.
Qed.

Lemma insert_swap_head (x y : Term) (es : list Term) (k : nat) :
  es !! k = Some y -> Permutation (x :: es) (y :: <[k := x]> es).
Proof.
  revert k. induction es as [| z es IH]; intros [| k] Hk; simpl in *; try discriminate.
  - injection Hk as ->. apply perm_swap.
  - rewrite perm_swap. rewrite (IH k Hk). apply perm_swap.
Qed.

Lemma insert_swap_Permutation (es : list Term) (i j : nat) (ti tj : Term) :
  es !! i = Some ti -> es !! j = Some tj ->
  Permutation es (<[j := ti]> (<[i := tj]> es)).
Proof.
  revert i j. induction es as [| x es IH]; intros [| i] [| j] Hi Hj;
    simpl in *; try discriminate.
  - injection Hi as ->. injection Hj as ->. reflexivity.
  - injection Hi as ->. apply insert_swap_head. exact Hj.
  - injection Hj as ->. apply insert_swap_head. exact Hi.
  - apply perm_skip. apply IH; assumption.
Qed.


(** What a swap does on a slice of the store, in terms of the array. *)
Lemma Swap_valid_run (h : store) (l : slice) (i j : Z) :
  valid h l -> 0 <= i < Z.of_nat (len l) -> 0 <= j < Z.of_nat (len l) ->
  exists (p : nat) (a : list Term) (ti tj : Term),
    array l = Some p /\ h !! p = Some a /\
    (len l <= cap l)%nat /\ (offset l + cap l <= length a)%nat /\
    elements h l = take (len l) (drop (offset l) a) /\
    elements h l !! Z.to_nat i = Some ti /\
    elements h l !! Z.to_nat j = Some tj /\
    Swap l i j h =
    (Ok tt, <[p := <[(offset l + Z.to_nat j)%nat := ti]>
                     (<[(offset l + Z.to_nat i)%nat := tj]> a)]> h) /\
    elements (<[p := <[(offset l + Z.to_nat j)%nat := ti]>
                       (<[(offset l + Z.to_nat i)%nat := tj]> a)]> h) l =
    <[Z.to_nat j := ti]> (<[Z.to_nat i := tj]> (elements h l)).
Proof.
  intros Hv Hi Hj. unfold valid in Hv.
  destruct (array l) as [p |] eqn:Hp; [| lia].
  destruct Hv as (a & Ha & Hlen & Hcap).
  destruct (Swap_run l i j h p a Hp Ha ltac:(lia) Hi Hj) as (ti & tj & Hti & Htj & Hrun).
  apply index_Ok_lookup in Hti as [_ Hti]. apply index_Ok_lookup in Htj as [_ Htj].
  exists p, a, ti, tj.
  split; [reflexivity |]. split; [exact Ha |].
  split; [exact Hlen |]. split; [exact Hcap |].
  split; [apply (elements_window h l p a Hp Ha) |].
  split; [exact Hti |]. split; [exact Htj |]. split; [exact Hrun |].
  rewrite (elements_window _ l p _ Hp (lookup_insert_eq _ _ _)).
  rewrite (elements_window h l p a Hp Ha).
  rewrite !window_insert by lia. reflexivity.
Qed.

Lemma index_insert_swap (es : list Term) (i j k : Z) (ti tj : Term) :
  0 <= i -> 0 <= j ->
  es !! Z.to_nat i = Some ti -> es !! Z.to_nat j = Some tj ->
  index (<[Z.to_nat j := ti]> (<[Z.to_nat i := tj]> es)) k =
  if k =? j then Ok ti else if k =? i then Ok tj else index es k.
Proof.
  intros Hi Hj Hti Htj.
  pose proof (lookup_lt_Some _ _ _ Hti) as Hli.
  pose proof (lookup_lt_Some _ _ _ Htj) as Hlj.
  unfold index. destruct (Z.eqb_spec k j) as [-> | Hkj].
  - destruct (Z.ltb_spec j 0); [lia |].
    rewrite list_lookup_insert_eq by (rewrite length_insert; lia). reflexivity.
  - destruct (Z.eqb_spec k i) as [-> | Hki].
    + destruct (Z.ltb_spec i 0); [lia |].
      rewrite list_lookup_insert_ne by lia.
      rewrite list_lookup_insert_eq by lia. reflexivity.
    + destruct (Z.ltb_spec k 0); [reflexivity |].
      rewrite !list_lookup_insert_ne by lia. reflexivity.
Qed.

(** X1: on a slice of the store and two indices within its length, [Swap]
    returns, and afterwards the slice shows the Term that was at [j] at
    [i], the Term that was at [i] at [j], and every other Term where it
    was; the Terms shown are a permutation of those shown before, and the
    slice is still a slice of the store. *)
Theorem Swap_exchanges (h : store) (l : slice) (i j : Z) :
  valid h l -> 0 <= i < Z.of_nat (len l) -> 0 <= j < Z.of_nat (len l) ->
  exists (h' : store) (ti tj : Term),
    Swap l i j h = (Ok tt, h') /\
    index (elements h l) i = Ok ti /\ index (elements h l) j = Ok tj /\
    index (elements h' l) i = Ok tj /\ index (elements h' l) j = Ok ti /\
    (forall k : Z, k <> i -> k <> j ->
                   index (elements h' l) k = index (elements h l) k) /\
    Len (elements h' l) = Len (elements h l) /\
    Permutation (elements h l) (elements h' l) /\
    valid h' l.
Proof.
  intros Hv Hi Hj.
  destruct (Swap_valid_run h l i j Hv Hi Hj)
    as (p & a & ti & tj & Hp & Ha & Hlen & Hcap & Hel & Hti & Htj & Hrun & Hel').
  eexists _, ti, tj. split; [exact Hrun |].
  rewrite Hel'.
  split; [apply index_Ok_lookup; split; [lia | exact Hti] |].
  split; [apply index_Ok_lookup; split; [lia | exact Htj] |].
  split.
  { rewrite (index_insert_swap _ i j i ti tj) by (lia || assumption).
    rewrite Z.eqb_refl. destruct (Z.eqb_spec i j) as [-> | _]; congruence. }
  split.
  { rewrite (index_insert_swap _ i j j ti tj) by (lia || assumption).
    rewrite Z.eqb_refl. reflexivity. }
  split.
  { intros k Hki Hkj.
    rewrite (index_insert_swap _ i j k ti tj) by (lia || assumption).
    destruct (Z.eqb_spec k j); [contradiction |].
    destruct (Z.eqb_spec k i); [contradiction | reflexivity]. }
  split; [unfold Len, LinearExpression; rewrite !length_insert; reflexivity |].
  split; [apply insert_swap_Permutation; assumption |].
  unfold valid. rewrite Hp. eexists. split; [apply lookup_insert_eq |].
  rewrite !length_insert. auto.
Qed.

(** X2: when one of the two indices is outside the slice, [Swap] panics
    with the index error and has written nothing: the store is the one it
    was given. *)
Theorem Swap_out_of_range (h : store) (l : slice) (i j : Z) :
  ~ (0 <= i < Len (elements h l) /\ 0 <= j < Len (elements h l)) ->
  Swap l i j h = (Panic IndexOutOfRange, h).
Proof.
  intros Hout. unfold Swap, bind, load, Len in *.
  destruct (Z_lt_dec j 0) as [Hj | Hj];
    [rewrite (index_out_of_range (elements h l) j) by lia; reflexivity |].
  destruct (Z_lt_dec j (Z.of_nat (length (elements h l)))) as [Hj' | Hj'];
    [| rewrite (index_out_of_range (elements h l) j) by lia; reflexivity].
  destruct (index_in_range (elements h l) j) as [tj ->]; [lia |].
  rewrite (index_out_of_range (elements h l) i) by lia. reflexivity.
Qed.

(** X3: swapping the same two positions twice gives back the store that
    was there before the first swap, so every slice over that array shows
    again what it showed. *)
Theorem Swap_twice (h : store) (l : slice) (i j : Z) :
  valid h l -> 0 <= i < Z.of_nat (len l) -> 0 <= j < Z.of_nat (len l) ->
  exists h' : store,
    Swap l i j h = (Ok tt, h') /\ Swap l i j h' = (Ok tt, h).
Proof.
  intros Hv Hi Hj.
  destruct (Swap_valid_run h l i j Hv Hi Hj)
    as (p & a & ti & tj & Hp & Ha & Hlen & Hcap & Hel & Hti & Htj & Hrun & Hel').
  eexists. split; [exact Hrun |].
  set (a' := <[(offset l + Z.to_nat j)%nat := ti]>
               (<[(offset l + Z.to_nat i)%nat := tj]> a)) in *.
  assert (Hv' : valid (<[p := a']> h) l).
  { unfold valid. rewrite Hp. exists a'. split; [apply lookup_insert_eq |].
    unfold a'. rewrite !length_insert. auto. }
  destruct (Swap_valid_run _ l i j Hv' Hi Hj)
    as (p' & a2 & ti' & tj' & Hp' & Ha2 & _ & _ & _ & Hti' & Htj' & Hrun' & _).
  rewrite Hp in Hp'. injection Hp' as <-.
  rewrite lookup_insert_eq in Ha2. injection Ha2 as <-.
  rewrite Hrun'. f_equal. rewrite insert_insert_eq.
  apply insert_id. rewrite Ha. f_equal.
  rewrite Hel' in Hti', Htj'. unfold LinearExpression in *.
  pose proof (lookup_lt_Some _ _ _ Hti) as Hli.
  pose proof (lookup_lt_Some _ _ _ Htj) as Hlj.
  rewrite list_lookup_insert_eq in Htj' by (rewrite length_insert; lia).
  injection Htj' as <-.
  assert (Hai : a !! (offset l + Z.to_nat i)%nat = Some ti).
  { rewrite Hel, lookup_take_lt, lookup_drop in Hti by lia. exact Hti. }
  assert (Haj : a !! (offset l + Z.to_nat j)%nat = Some tj).
  { rewrite Hel, lookup_take_lt, lookup_drop in Htj by lia. exact Htj. }
  unfold a'. symmetry.
  destruct (decide (Z.to_nat i = Z.to_nat j)) as [Heq | Hne].
  - rewrite Heq in *.
    rewrite list_lookup_insert_eq in Hti' by (rewrite length_insert; lia).
    injection Hti' as <-.
    rewrite !list_insert_insert_eq. apply list_insert_id. congruence.
  - rewrite list_lookup_insert_ne in Hti' by lia.
    rewrite list_lookup_insert_eq in Hti' by lia.
    injection Hti' as <-.
    rewrite (list_insert_insert_ne _ (offset l + Z.to_nat i)%nat
                                   (offset l + Z.to_nat j)%nat ti ti) by lia.
    rewrite list_insert_insert_eq.
    rewrite list_insert_insert_eq.
    rewrite (list_insert_id a _ ti Hai).
    apply list_insert_id. exact Haj.
Qed.

(** X5: [Swap] and [Less] together, as a sort uses them: after a swap of
    two positions within the slice, [Less] on these positions answers what
    it answered before with the arguments exchanged, answers as before on
    positions the swap did not touch, and between a swapped position and
    an untouched one answers what it answered for the other swapped
    position. *)
Theorem Less_after_Swap (h : store) (l : slice) (i j : Z) :
  valid h l -> 0 <= i < Z.of_nat (len l) -> 0 <= j < Z.of_nat (len l) ->
  exists h' : store,
    Swap l i j h = (Ok tt, h') /\
    Less (elements h' l) i j = Less (elements h l) j i /\
    Less (elements h' l) j i = Less (elements h l) i j /\
    (forall k m : Z, k <> i -> k <> j -> m <> i -> m <> j ->
                     Less (elements h' l) k m = Less (elements h l) k m) /\
    (forall k : Z, k <> i -> k <> j ->
                   Less (elements h' l) i k = Less (elements h l) j k /\
                   Less (elements h' l) k j = Less (elements h l) k i /\
                   Less (elements h' l) j k = Less (elements h l) i k /\
                   Less (elements h' l) k i = Less (elements h l) k j).
Proof.
  intros Hv Hi Hj.
  destruct (Swap_valid_run h l i j Hv Hi Hj)
    as (p & a & ti & tj & Hp & Ha & Hlen & Hcap & Hel & Hti & Htj & Hrun & Hel').
  eexists. split; [exact Hrun |]. rewrite Hel'.
  assert (Hidx : forall k,
             index (<[Z.to_nat j := ti]> (<[Z.to_nat i := tj]> (elements h l))) k =
             if k =? j then Ok ti else if k =? i then Ok tj else index (elements h l) k).
  { intros k. apply index_insert_swap; (lia || assumption). }
  assert (Hoi : index (elements h l) i = Ok ti)
    by (apply index_Ok_lookup; split; [lia | exact Hti]).
  assert (Hoj : index (elements h l) j = Ok tj)
    by (apply index_Ok_lookup; split; [lia | exact Htj]).
  assert (Hsame : i = j -> ti = tj) by (intros ->; congruence).
  unfold Less. rewrite !Hidx, !Z.eqb_refl, Hoi, Hoj.
  split; [| split; [| split]].
  - destruct (Z.eqb_spec i j) as [E | _]; [rewrite (Hsame E) |]; reflexivity.
  - destruct (Z.eqb_spec i j) as [E | _]; [rewrite (Hsame E) |]; reflexivity.
  - intros k m Hki Hkj Hmi Hmj. rewrite !Hidx.
    destruct (Z.eqb_spec k j); [contradiction |].
    destruct (Z.eqb_spec k i); [contradiction |].
    destruct (Z.eqb_spec m j); [contradiction |].
    destruct (Z.eqb_spec m i); [contradiction | reflexivity].
  - intros k Hki Hkj. rewrite !Hidx.
    destruct (Z.eqb_spec k j); [contradiction |].
    destruct (Z.eqb_spec k i); [contradiction |].
    destruct (Z.eqb_spec i j) as [E | _]; [rewrite (Hsame E) |];
      repeat split; try reflexivity.
    all: destruct (index (elements h l) k); reflexivity.
Qed.

(** ** Less and the sort interface *)

(** X4: [Less] returns exactly when both indices are within the
    LinearExpression, [0 <= i, j < Len]; with an index outside it panics
    with the index error, so on an empty LinearExpression it always
    panics. *)
Theorem Less_returns_iff_in_range (l : LinearExpression) (i j : Z) :
  ((exists r : bool, Less l i j = Ok r) <-> 0 <= i < Len l /\ 0 <= j < Len l) /\
  (~ (0 <= i < Len l /\ 0 <= j < Len l) -> Less l i j = Panic IndexOutOfRange) /\
  (l = [] -> Less l i j = Panic IndexOutOfRange).
Proof.
  assert (Hin : 0 <= i < Len l /\ 0 <= j < Len l -> exists r, Less l i j = Ok r).
  { intros [Hi Hj]. unfold Len in *.
    destruct (index_in_range l i Hi) as [a Ha].
    destruct (index_in_range l j Hj) as [b Hb].
    exists (lessTerm a b). apply Less_index; assumption. }
  assert (Hout : ~ (0 <= i < Len l /\ 0 <= j < Len l) -> Less l i j = Panic IndexOutOfRange).
  { intros Hn. unfold Less, Len in *.
    destruct (index l i) as [a | p] eqn:Ei.
    - apply index_Ok_lookup in Ei as [Hi Ei]. apply lookup_lt_Some in Ei.
      rewrite (index_out_of_range l j) by lia. reflexivity.
    - apply index_Panic_inv in Ei as [-> _]. reflexivity. }
  split; [split; [| exact Hin] | split; [exact Hout |]].
  - intros [r Hr].
    destruct (Z_lt_dec i 0); [rewrite Hout in Hr by lia; discriminate |].
    destruct (Z_lt_dec i (Len l)); [| rewrite Hout in Hr by lia; discriminate].
    destruct (Z_lt_dec j 0); [rewrite Hout in Hr by lia; discriminate |].
    destruct (Z_lt_dec j (Len l)); [| rewrite Hout in Hr by lia; discriminate].
    lia.
  - intros ->. apply Hout. unfold Len. simpl. lia.
Qed.

(** X6: a LinearExpression that [sort.IsSorted] accepts, where no element
    is less than its predecessor, is in order throughout: no element is
    less than any element before it. *)
Theorem IsSorted_all_pairs (l : LinearExpression) (i j : Z) :
  IsSorted l -> 0 <= i -> i < j -> j < Len l -> Less l j i = Ok false.
Proof.
  intros Hs Hi Hij Hj.
  assert (Hd : forall (d : nat) (k : Z),
             0 <= k -> k + 1 + Z.of_nat d < Len l ->
             Less l (k + 1 + Z.of_nat d) k = Ok false).
  { induction d as [| d IH]; intros k Hk Hlen.
    - replace (k + 1 + Z.of_nat 0) with (k + 1) by lia.
      specialize (Hs (k + 1)). replace (k + 1 - 1) with k in Hs by lia.
      apply Hs. lia.
    - pose proof (IH k Hk ltac:(lia)) as H1.
      pose proof (Hs (k + 1 + Z.of_nat (S d)) ltac:(lia)) as H2.
      replace (k + 1 + Z.of_nat (S d) - 1) with (k + 1 + Z.of_nat d) in H2 by lia.
      apply Less_Ok_inv in H1 as (b & a & Hb & Ha & Hba).
      apply Less_Ok_inv in H2 as (c & b' & Hc & Hb' & Hcb).
      rewrite Hb in Hb'. injection Hb' as <-.
      rewrite (Less_index l _ k c a Hc Ha). f_equal.
      apply lessTerm_false in Hba, Hcb. apply lessTerm_false.
      exact (keyLe_trans _ _ _ Hba Hcb). }
  specialize (Hd (Z.to_nat (j - i - 1)) i Hi).
  replace (i + 1 + Z.of_nat (Z.to_nat (j - i - 1))) with j in Hd by lia.
  apply Hd. exact Hj.
Qed.

(** ** The builder *)

Lemma appends_ret {A : Type} (a : A) : appends (ret a).
Proof. intros sbb. unfold ret. simpl. rewrite append_nil_r. reflexivity. Qed.

Lemma appends_lift {A : Type} (o : outcome A) : appends (lift o).
Proof. intros sbb. unfold lift. simpl. rewrite append_nil_r. reflexivity. Qed.

Lemma appends_WriteString (s : string) : appends (WriteString s).
Proof. intros sbb. reflexivity. Qed.

Lemma appends_bind {A B : Type} (m : M Builder A) (k : A -> M Builder B) :
  appends m -> (forall a : A, appends (k a)) -> appends (bind m k).
Proof.
  intros Hm Hk sbb. unfold bind. rewrite (Hm sbb).
  destruct (m EmptyString) as [[a | p] w]; simpl; [| reflexivity].
  rewrite (Hk a (sbb ++ w)%string), (Hk a w). simpl.
  rewrite append_assoc. reflexivity.
Qed.

Lemma appends_Term_string (t : Term) (coeffs : list Z) :
  appends (Term_string t coeffs).
Proof.
  unfold Term_string.
  repeat (apply appends_bind; [| intros ?]);
    try apply appends_lift; try apply appends_WriteString.
  destruct (visibilityPrefix (VariableVisibility t));
    [apply appends_WriteString | apply appends_lift].
Qed.

Lemma appends_LinearExpression_string (l : LinearExpression) (coeffs : list Z) :
  appends (LinearExpression_string l coeffs).
Proof.
  induction l as [| t rest IH]; cbn [LinearExpression_string].
  - apply appends_ret.
  - apply appends_bind; [apply appends_Term_string | intros _].
    apply appends_bind; [| intros _; exact IH].
    destruct rest; [apply appends_ret | apply appends_WriteString].
Qed.

(** X7: [Term.string] and [LinearExpression.string] only append to the
    builder they are given.  What was written before the call is still
    there afterwards, as a prefix, also when the call panics, and neither
    the outcome nor the text added depends on it. *)
Theorem string_only_appends (coeffs : list Z) (sbb : Builder) :
  (forall t : Term,
      Term_string t coeffs sbb =
      ((Term_string t coeffs EmptyString).1,
       (sbb ++ (Term_string t coeffs EmptyString).2)%string)) /\
  (forall l : LinearExpression,
      LinearExpression_string l coeffs sbb =
      ((LinearExpression_string l coeffs EmptyString).1,
       (sbb ++ (LinearExpression_string l coeffs EmptyString).2)%string)).
Proof.
  split.
  - intros t. apply appends_Term_string.
  - intros l. apply appends_LinearExpression_string.
Qed.

(** X8: rendering the concatenation of two non-empty LinearExpressions is
    rendering the first, writing [" + "], and rendering the second, with
    the panic of the first, if any, ending the run. *)
Theorem LinearExpression_string_app (l1 l2 : LinearExpression) (coeffs : list Z)
        (sbb : Builder) :
  l1 <> [] -> l2 <> [] ->
  LinearExpression_string (l1 ++ l2) coeffs sbb =
  (LinearExpression_string l1 coeffs ;;
   WriteString " + " ;;
   LinearExpression_string l2 coeffs)%monad sbb.
Proof.
  intros H1 H2. revert sbb.
  induction l1 as [| t r IH]; [contradiction |]. intros sbb.
  destruct r as [| t' r'].
  - destruct l2 as [| u l2']; [contradiction |].
    cbn [app LinearExpression_string]. unfold bind, ret.
    destruct (Term_string t coeffs sbb) as [[[] | p] st]; reflexivity.
  - change ((t :: t' :: r') ++ l2) with (t :: (t' :: r') ++ l2).
    assert (Hstep : forall (rest : LinearExpression) (st : Builder),
               rest <> [] ->
               LinearExpression_string (t :: rest) coeffs st =
               match Term_string t coeffs st with
               | (Ok _, st') => LinearExpression_string rest coeffs (st' ++ " + ")%string
               | (Panic p, st') => (Panic p, st')
               end).
    { intros rest st Hr. destruct rest; [contradiction |].
      cbn [LinearExpression_string]. unfold bind at 1.
      destruct (Term_string t coeffs st) as [[[] | p] st']; reflexivity. }
    rewrite Hstep by discriminate.
    unfold bind at 1. rewrite (Hstep (t' :: r') sbb) by discriminate.
    destruct (Term_string t coeffs sbb) as [[[] | p] st]; [| reflexivity].
    rewrite IH by discriminate. reflexivity.
Qed.

(** ** When rendering succeeds *)

Lemma render_term_spec_Ok_iff (coeffs : list Z) (t : Term) :
  (exists s : string, render_term_spec coeffs t = Ok s) <->
  0 <= CoeffID t < Z.of_nat (length coeffs) /\
  VariableVisibility t ∈ declaredVisibilities.
Proof.
  split.
  - intros [s Hs]. unfold render_term_spec in Hs.
    destruct (index coeffs (CoeffID t)) as [c | p] eqn:Ei; simpl in Hs; [| discriminate].
    apply index_Ok_lookup in Ei as [Hc Ei]. apply lookup_lt_Some in Ei.
    split; [lia |].
    destruct (visibilityPrefix (VariableVisibility t)) as [letter |] eqn:Ev;
      [| discriminate].
    destruct (decide (VariableVisibility t ∈@{list Z} declaredVisibilities))
      as [Hin | Hnot]; [exact Hin |].
    apply visibilityPrefix_None in Hnot. congruence.
  - intros [Hc Hv]. unfold render_term_spec.
    destruct (index_in_range coeffs (CoeffID t) Hc) as [c ->]. simpl.
    destruct (visibilityPrefix (VariableVisibility t)) as [letter |] eqn:Ev; [eauto |].
    apply visibilityPrefix_None in Ev. contradiction.
Qed.

Lemma render_spec_Ok_iff (coeffs : list Z) (l : LinearExpression) :
  (exists s : string, render_spec coeffs l = Ok s) <->
  forall t : Term, t ∈ l ->
    0 <= CoeffID t < Z.of_nat (length coeffs) /\
    VariableVisibility t ∈ declaredVisibilities.
Proof.
  pose proof (render_terms_spec_cases coeffs l) as Hc. unfold render_spec.
  destruct (render_terms_spec coeffs l) as [ss | p]; simpl.
  - split; [| eauto]. intros _ t Ht. rewrite Forall_forall in Hc.
    apply render_term_spec_Ok_iff. apply Hc. exact Ht.
  - split; [intros [s Hs]; discriminate |].
    intros Hall. apply Exists_exists in Hc as (u & Hu & Hp).
    destruct (proj2 (render_term_spec_Ok_iff coeffs u) (Hall u Hu)) as [s Hs].
    congruence.
Qed.

Lemma render_spec_Panic_kind (coeffs : list Z) (l : LinearExpression) (p : panic) :
  render_spec coeffs l = Panic p ->
  p = IndexOutOfRange \/ p = PanicString "not implemented".
Proof.
  pose proof (render_terms_spec_cases coeffs l) as Hc. unfold render_spec.
  destruct (render_terms_spec coeffs l) as [ss | q]; simpl; [discriminate |].
  intros [= ->]. apply Exists_exists in Hc as (u & _ & Hp).
  destruct (render_term_spec_Panic_inv coeffs u p Hp) as [[-> _] | [-> _]]; auto.
Qed.

(** X9: [R1C.String] returns a string exactly when its receiver is not
    nil and every Term of L, R and O has a coefficient id inside the table
    and one of the five declared visibilities.  On a nil receiver it
    panics with the nil dereference; on a constraint it cannot render the
    panic is the index error or "not implemented", nothing else. *)
Theorem R1C_String_returns_iff (r1c : option R1C) (coeffs : list Z) :
  ((exists s : string, R1C_String r1c coeffs = Ok s) <->
   (exists c : R1C,
       r1c = Some c /\
       forall t : Term,
         t ∈ L c \/ t ∈ R c \/ t ∈ O c ->
         0 <= CoeffID t < Z.of_nat (length coeffs) /\
         VariableVisibility t ∈ declaredVisibilities)) /\
  (r1c = None -> R1C_String r1c coeffs = Panic NilDereference) /\
  (forall p : panic,
      R1C_String r1c coeffs = Panic p ->
      (p = NilDereference /\ r1c = None) \/
      (r1c <> None /\ (p = IndexOutOfRange \/ p = PanicString "not implemented"))).
Proof.
  destruct r1c as [c |].
  2: { split; [| split].
       - split; [intros [s Hs]; discriminate | intros (c & Hc & _); discriminate].
       - intros _. reflexivity.
       - intros p Hp. left. rewrite R1C_String_nil in Hp.
         injection Hp as <-. auto. }
  assert (Hchar :
    ((exists s : string, render_R1C_spec coeffs c = Ok s) <->
     (forall t : Term,
         t ∈ L c \/ t ∈ R c \/ t ∈ O c ->
         0 <= CoeffID t < Z.of_nat (length coeffs) /\
         VariableVisibility t ∈ declaredVisibilities)) /\
    (forall p : panic,
        render_R1C_spec coeffs c = Panic p ->
        p = IndexOutOfRange \/ p = PanicString "not implemented")).
  { unfold render_R1C_spec.
    pose proof (render_spec_Ok_iff coeffs (L c)) as HL.
    pose proof (render_spec_Ok_iff coeffs (R c)) as HR.
    pose proof (render_spec_Ok_iff coeffs (O c)) as HO.
    pose proof (render_spec_Panic_kind coeffs (L c)) as KL.
    pose proof (render_spec_Panic_kind coeffs (R c)) as KR.
    pose proof (render_spec_Panic_kind coeffs (O c)) as KO.
    destruct (render_spec coeffs (L c)) as [sl | pl]; simpl.
    2: { split; [| intros p [= <-]; auto].
         split; [intros [s Hs]; discriminate |].
         intros Hall. destruct (proj2 HL) as [s Hs]; [auto | discriminate]. }
    destruct (render_spec coeffs (R c)) as [sr | pr]; simpl.
    2: { split; [| intros p [= <-]; auto].
         split; [intros [s Hs]; discriminate |].
         intros Hall. destruct (proj2 HR) as [s Hs]; [auto | discriminate]. }
    destruct (render_spec coeffs (O c)) as [so | po]; simpl.
    2: { split; [| intros p [= <-]; auto].
         split; [intros [s Hs]; discriminate |].
         intros Hall. destruct (proj2 HO) as [s Hs]; [auto | discriminate]. }
    split; [| intros p Hp; discriminate].
    split; [| eauto].
    intros _ t [Ht | [Ht | Ht]];
      [apply (proj1 HL) | apply (proj1 HR) | apply (proj1 HO)]; eauto. }
  rewrite R1C_String_spec. destruct Hchar as [Hiff Hkind].
  split; [| split].
  - split.
    + intros Hs. exists c. split; [reflexivity |]. apply Hiff. exact Hs.
    + intros (c' & Hc & Hall). injection Hc as <-. apply Hiff. exact Hall.
  - discriminate.
  - intros p Hp. right. split; [discriminate |]. apply Hkind. exact Hp.
Qed.

Lemma render_terms_spec_first_failure (coeffs : list Z) (l1 l2 : LinearExpression)
      (t : Term) (p : panic) :
  (forall u : Term, u ∈ l1 -> exists s, render_term_spec coeffs u = Ok s) ->
  render_term_spec coeffs t = Panic p ->
  render_spec coeffs (l1 ++ t :: l2) = Panic p.
Proof.
  intros Hall Ht. unfold render_spec.
  induction l1 as [| u r IH]; simpl.
  - rewrite Ht. reflexivity.
  - destruct (Hall u) as [s ->]; [left |]. simpl.
    destruct (render_terms_spec coeffs (r ++ t :: l2)) as [ss | q] eqn:E; simpl in *.
    + specialize (IH ltac:(intros x Hx; apply Hall; right; exact Hx)). discriminate.
    + apply IH. intros x Hx. apply Hall. right. exact Hx.
Qed.

(** X10: the panic of [LinearExpression.string] is that of the first Term
    it cannot render, whatever Terms follow: the index error when that
    Term's coefficient id is outside the table, "not implemented" when the
    coefficient id is inside and the visibility is not a declared one. *)
Theorem LinearExpression_string_first_failure (l1 l2 : LinearExpression) (t : Term)
        (coeffs : list Z) (sbb : Builder) :
  (forall u : Term,
      u ∈ l1 ->
      0 <= CoeffID u < Z.of_nat (length coeffs) /\
      VariableVisibility u ∈ declaredVisibilities) ->
  (~ 0 <= CoeffID t < Z.of_nat (length coeffs) ->
   (LinearExpression_string (l1 ++ t :: l2) coeffs sbb).1 = Panic IndexOutOfRange) /\
  (0 <= CoeffID t < Z.of_nat (length coeffs) ->
   VariableVisibility t ∉ declaredVisibilities ->
   (LinearExpression_string (l1 ++ t :: l2) coeffs sbb).1 =
   Panic (PanicString "not implemented")).
Proof.
  intros Hall.
  assert (Hok : forall u, u ∈ l1 -> exists s, render_term_spec coeffs u = Ok s).
  { intros u Hu. apply render_term_spec_Ok_iff. apply Hall. exact Hu. }
  split.
  - intros Hout. apply LinearExpression_string_Panic.
    apply render_terms_spec_first_failure; [exact Hok |].
    unfold render_term_spec. rewrite (index_out_of_range coeffs (CoeffID t) Hout).
    reflexivity.
  - intros Hin Hvis. apply LinearExpression_string_Panic.
    apply render_terms_spec_first_failure; [exact Hok |].
    unfold render_term_spec.
    destruct (index_in_range coeffs (CoeffID t) Hin) as [c ->]. simpl.
    apply visibilityPrefix_None in Hvis. rewrite Hvis. reflexivity.
Qed.

(** ** More on Clone *)

(** X11: the slice [Clone] returns is full: it starts at the beginning of
    its array and its capacity is its length, the length of the original.
    So an [append] to the clone cannot write in place: it returns a slice
    over another new array showing the cloned Terms followed by the new
    one, and the clone and the original show what they showed. *)
Theorem Clone_then_append (h : store) (e : slice) :
  valid h e ->
  exists (c : slice) (h1 : store),
    Clone e h = (Ok c, h1) /\
    offset c = 0%nat /\ cap c = len c /\ len c = len e /\
    Len (elements h1 c) = Z.of_nat (len e) /\
    forall t : Term,
    exists (c' : slice) (h2 : store) (p' : nat),
      append c t h1 = (Ok c', h2) /\
      array c' = Some p' /\ h1 !! p' = None /\
      elements h2 c' = elements h e ++ [t] /\
      elements h2 c = elements h e /\
      elements h2 e = elements h e.
Proof.
  intros Hv. pose proof (Clone_run h e Hv) as Hrun. simpl in Hrun.
  set (p := fresh (dom h)) in *.
  set (c := mkSlice (Some p) 0 (len e) (len e)) in *.
  set (h1 := <[p := elements h e]> h) in *.
  assert (Hlen : length (elements h e) = len e) by (apply elements_length; exact Hv).
  assert (Hp : array e <> Some p).
  { intros Hb. apply (fresh_not_allocated h p); [| reflexivity].
    eapply valid_allocated; eauto. }
  assert (Hc : elements h1 c = elements h e).
  { unfold elements at 1. unfold backing, h1, c. simpl. rewrite lookup_insert_eq.
    rewrite drop_0. apply take_ge. lia. }
  assert (He : elements h1 e = elements h e).
  { apply elements_same_array. intros b Hb. unfold h1. apply lookup_insert_ne. congruence. }
  exists c, h1. split; [exact Hrun |].
  split; [reflexivity |]. split; [reflexivity |]. split; [reflexivity |].
  split; [rewrite Hc; unfold Len; lia |].
  intros t. unfold append.
  replace (len c <? cap c)%nat with false
    by (symmetry; apply Nat.ltb_irrefl).
  set (p' := fresh (dom h1)).
  assert (Hp' : h1 !! p' = None) by (apply not_elem_of_dom; apply is_fresh).
  assert (Hpp : p' <> p).
  { intros Heq. unfold h1 in Hp'. rewrite Heq, lookup_insert_eq in Hp'. discriminate. }
  eexists _, _, p'. split; [reflexivity |].
  split; [reflexivity |]. split; [exact Hp' |].
  split; [| split].
  - unfold elements at 1. unfold backing. simpl. rewrite lookup_insert_eq.
    rewrite drop_0, Hc. rewrite cons_middle, app_assoc.
    apply take_app_length'. rewrite length_app, Hlen. simpl. lia.
  - rewrite <- Hc. apply elements_same_array. intros b Hb.
    unfold c in Hb. simpl in Hb. injection Hb as <-.
    apply lookup_insert_ne. exact Hpp.
  - rewrite <- He. apply elements_same_array. intros b Hb.
    apply lookup_insert_ne. intros Heq.
    assert (His : is_Some (h1 !! b)).
    { unfold h1. rewrite lookup_insert_ne by congruence.
      eapply valid_allocated; eauto. }
    rewrite <- Heq, Hp' in His. destruct His as [x Hx]. discriminate.
Qed.

(** X12: [Clone] writes to no array that existed: every slice of the store
    shows after the call what it showed before and is still a slice of the
    store, and the clone is one too. *)
Theorem Clone_preserves_slices (h : store) (e : slice) :
  valid h e ->
  exists (c : slice) (h1 : store),
    Clone e h = (Ok c, h1) /\
    valid h1 c /\
    (forall b : nat, is_Some (h !! b) -> h1 !! b = h !! b) /\
    (forall s : slice, valid h s -> elements h1 s = elements h s /\ valid h1 s).
Proof.
  intros Hv. pose proof (Clone_run h e Hv) as Hrun. simpl in Hrun.
  set (p := fresh (dom h)) in *.
  assert (Hframe : forall b, is_Some (h !! b) -> <[p := elements h e]> h !! b = h !! b).
  { intros b Hb. apply lookup_insert_ne. apply fresh_not_allocated. exact Hb. }
  eexists _, _. split; [exact Hrun |]. split; [| split; [exact Hframe |]].
  - unfold valid. simpl. exists (elements h e). rewrite lookup_insert_eq.
    rewrite (elements_length h e Hv). split; [reflexivity | lia].
  - intros s Hs. split.
    + apply elements_same_array. intros b Hb. apply Hframe.
      eapply valid_allocated; eauto.
    + unfold valid in *. destruct (array s) as [b |]; [| exact Hs].
      destruct Hs as (a & Ha & Hs). exists a. split; [| exact Hs].
      rewrite Hframe by (rewrite Ha; eauto). exact Ha.
Qed.

(** ** Growing the coefficient table *)

Lemma index_app_l {A : Type} (s more : list A) (i : Z) (a : A) :
  index s i = Ok a -> index (s ++ more) i = Ok a.
Proof.
  intros H. apply index_Ok_lookup in H as [Hi H]. apply index_Ok_lookup.
  split; [exact Hi |]. apply lookup_app_l_Some. exact H.
Qed.

Lemma render_term_spec_app (coeffs more : list Z) (t : Term) (s : string) :
  render_term_spec coeffs t = Ok s -> render_term_spec (coeffs ++ more) t = Ok s.
Proof.
  unfold render_term_spec.
  destruct (index coeffs (CoeffID t)) as [c | p] eqn:Ei; simpl; [| discriminate].
  rewrite (index_app_l coeffs more _ c Ei). simpl. auto.
Qed.

Lemma render_spec_app (coeffs more : list Z) (l : LinearExpression) (s : string) :
  render_spec coeffs l = Ok s -> render_spec (coeffs ++ more) l = Ok s.
Proof.
  unfold render_spec.
  assert (H : forall ss, render_terms_spec coeffs l = Ok ss ->
                         render_terms_spec (coeffs ++ more) l = Ok ss).
  { induction l as [| t rest IH]; intros ss; simpl; [auto |].
    destruct (render_term_spec coeffs t) as [x |] eqn:Et; simpl; [| discriminate].
    rewrite (render_term_spec_app coeffs more t x Et). simpl.
    destruct (render_terms_spec coeffs rest) as [xs |]; simpl; [| discriminate].
    rewrite (IH xs eq_refl). simpl. auto. }
  destruct (render_terms_spec coeffs l) as [ss |]; simpl; [| discriminate].
  rewrite (H ss eq_refl). simpl. auto.
Qed.

(** X13: rendering reads the table only at the coefficient ids of the
    Terms: a constraint that [R1C.String] renders with a table renders to
    the same string with any longer table that starts with it, and so
    does a LinearExpression. *)
Theorem R1C_String_longer_table (r1c : option R1C) (coeffs more : list Z) (s : string) :
  R1C_String r1c coeffs = Ok s ->
  R1C_String r1c (coeffs ++ more) = Ok s /\
  (forall (l : LinearExpression) (sbb out : Builder),
      LinearExpression_string l coeffs sbb = (Ok tt, out) ->
      LinearExpression_string l (coeffs ++ more) sbb = (Ok tt, out)).
Proof.
  intros Hs. split.
  - destruct r1c as [r1c |]; [| discriminate].
    rewrite R1C_String_spec in *. unfold render_R1C_spec in *.
    destruct (render_spec coeffs (L r1c)) as [sl |] eqn:EL; simpl in Hs; [| discriminate].
    destruct (render_spec coeffs (R r1c)) as [sr |] eqn:ER; simpl in Hs; [| discriminate].
    destruct (render_spec coeffs (O r1c)) as [so |] eqn:EO; simpl in Hs; [| discriminate].
    rewrite (render_spec_app _ more _ _ EL), (render_spec_app _ more _ _ ER),
            (render_spec_app _ more _ _ EO).
    exact Hs.
  - intros l sbb out Hl.
    pose proof (LinearExpression_string_spec l coeffs sbb) as H1.
    pose proof (LinearExpression_string_spec l (coeffs ++ more) sbb) as H2.
    destruct (render_spec coeffs l) as [x |] eqn:Ex.
    + rewrite (render_spec_app _ more _ _ Ex) in H2. congruence.
    + rewrite Hl in H1. discriminate.
Qed.

(** X14: swapping a position within the slice with itself returns and
    leaves the store as it was. *)
Theorem Swap_same_index (h : store) (l : slice) (i : Z) :
  valid h l -> 0 <= i < Z.of_nat (len l) -> Swap l i i h = (Ok tt, h).
Proof.
  intros Hv Hi.
  destruct (Swap_valid_run h l i i Hv Hi Hi)
    as (p & a & ti & tj & Hp & Ha & Hlen & Hcap & Hel & Hti & Htj & Hrun & _).
  rewrite Hrun. f_equal. apply insert_id. rewrite Ha. f_equal.
  assert (ti = tj) as -> by congruence.
  rewrite list_insert_insert_eq. symmetry. apply list_insert_id.
  unfold LinearExpression in *.
  rewrite Hel, lookup_take_lt, lookup_drop in Htj by lia. exact Htj.
Qed.

End Compiled.

(** * Instances

    The statements above at a 64-bit packing, 28 bits for each id and 8
    for the visibility, on concrete Terms. *)

(** C1 at [(0, 7, Virtual)] and [(0, 2, Internal)]. *)
Lemma Less_canonical_order_witness :
  index [1796; 513] 0 = Ok 1796 /\ index [1796; 513] 1 = Ok 513 /\
  Unpack 28 28 1796 = (0, 7, Virtual) /\ Unpack 28 28 513 = (0, 2, Internal) /\
  Less 28 28 [1796; 513] 0 1 = Ok true /\ Less 28 28 [1796; 513] 1 0 = Ok false.
Proof.
  repeat (split; [reflexivity |]).
  destruct (Less_canonical_order 28 28 [1796; 513] 0 1 1796 513 eq_refl eq_refl)
    as (_ & H & _).
  apply (H Virtual Internal); [| reflexivity | reflexivity].
  rewrite !elem_of_cons. do 4 right. left. reflexivity.
Defined.

(** C2: two different Terms, [(0, 1, Public)] and [(1, 1, Public)], neither
    of which is less than the other, and which are sorted in both
    arrangements. *)
Lemma Less_total_counterexample :
  Pack 28 28 0 1 Public = inr 259 /\
  Pack 28 28 1 1 Public = inr 68719476995 /\
  (259 : Term) <> 68719476995 /\
  Less 28 28 [259; 68719476995] 0 1 = Ok false /\
  Less 28 28 [259; 68719476995] 1 0 = Ok false /\
  Permutation [259; 68719476995] [68719476995; 259] /\
  IsSorted 28 28 [259; 68719476995] /\
  IsSorted 28 28 [68719476995; 259] /\
  [259; 68719476995] <> [68719476995; 259].
Proof.
  repeat (split; [reflexivity |]).
  split; [discriminate |].
  repeat (split; [reflexivity |]).
  split; [apply perm_swap |].
  split; [| split; [| discriminate]];
    intros i Hi; unfold Len in Hi; simpl in Hi;
    assert (i = 1) as -> by lia; reflexivity.
Defined.

(** C2 (amended) at the same two Terms and at [(0, 2, Public)]. *)
Lemma Less_strict_weak_order_witness :
  Less 28 28 [259; 68719476995; 515] 0 2 = Ok true /\
  Less 28 28 [259; 68719476995; 515] 2 0 = Ok false /\
  Less 28 28 [259; 68719476995; 515] 0 1 = Ok false /\
  Less 28 28 [259; 68719476995; 515] 1 0 = Ok false.
Proof.
  destruct (Less_strict_weak_order 28 28) as (_ & Hasym & _ & Htot & _).
  split; [reflexivity |].
  split; [apply Hasym; reflexivity |].
  apply (Htot [259; 68719476995; 515] 0 1 259 68719476995); reflexivity.
Defined.

(** C3 at the triple (5, 9, Secret). *)
Lemma Unpack_Pack_witness :
  (Secret ∈ declaredVisibilities) /\ 0 <= 5 < 2 ^ Z.of_N 28 /\ 0 <= 9 < 2 ^ Z.of_N 28 /\
  exists t : Term,
    Pack 28 28 5 9 Secret = inr t /\ Unpack 28 28 t = (5, 9, Secret) /\
    CoeffID 28 28 t = 5 /\ VariableID 28 28 t = 9 /\ VariableVisibility 28 28 t = Secret.
Proof.
  assert (Hs : Secret ∈ declaredVisibilities).
  { unfold declaredVisibilities. rewrite !elem_of_cons. do 2 right. left. reflexivity. }
  assert (H5 : 0 <= 5 < 2 ^ Z.of_N 28) by (simpl; lia).
  assert (H9 : 0 <= 9 < 2 ^ Z.of_N 28) by (simpl; lia).
  split; [exact Hs |]. split; [exact H5 |]. split; [exact H9 |].
  exact (Unpack_Pack 28 28 5 9 Secret Hs H5 H9).
Defined.

(** C4 at the constraint of the spec's example. *)
Lemma R1C_String_format_witness :
  Unpack 28 28 259 = (0, 1, Public) /\
  Unpack 28 28 68719477249 = (1, 2, Internal) /\
  R1C_String 28 28 (Some (mkR1C [259] [259] [68719477249])) [1; 1] =
  Ok "L[1*p1] * R[1*p1] = O[1*i2]"%string.
Proof.
  split; [reflexivity |]. split; [reflexivity |].
  destruct (R1C_String_format 28 28) as (_ & _ & H).
  apply H; reflexivity.
Defined.

(** C5 at the expression of the spec's example. *)
Lemma LinearExpression_string_format_witness :
  Unpack 28 28 1281 = (0, 5, Internal) /\
  Unpack 28 28 68719477251 = (1, 2, Public) /\
  LinearExpression_string 28 28 [1281; 68719477251] [3; 7] EmptyString =
  (Ok tt, "3*i5 + 7*p2"%string).
Proof.
  split; [reflexivity |]. split; [reflexivity |].
  destruct (LinearExpression_string_format 28 28) as (_ & _ & _ & H).
  apply (H 1281 68719477251 EmptyString); reflexivity.
Defined.

(** C6: a Term of visibility 9 whose coefficient id 3 has no entry in the
    table [1, 1]: rendering it fails with the index error, not with the
    panic of the visibility switch. *)
Lemma Term_string_undeclared_visibility_counterexample :
  Unpack 28 28 206158430217 = (3, 0, 9) /\
  (VariableVisibility 28 28 206158430217 ∉ declaredVisibilities) /\
  Term_string 28 28 206158430217 [1; 1] EmptyString = (Panic IndexOutOfRange, EmptyString) /\
  IndexOutOfRange <> PanicString "not implemented".
Proof.
  split; [reflexivity |].
  split; [| split; [reflexivity | discriminate]].
  apply visibilityPrefix_None. reflexivity.
Defined.

(** C6 (amended) at a Term of visibility 9 with coefficient id 0 and the
    table [3, 7]. *)
Lemma Term_string_undeclared_visibility_witness :
  (VariableVisibility 28 28 9 ∉ declaredVisibilities) /\
  Term_string 28 28 9 [3; 7] "x"%string =
  (Panic (PanicString "not implemented"), "x3*"%string) /\
  (exists p : panic, R1C_String 28 28 (Some (mkR1C [259] [9] [259])) [3; 7] = Panic p).
Proof.
  assert (Hv : VariableVisibility 28 28 9 ∉ declaredVisibilities)
    by (apply visibilityPrefix_None; reflexivity).
  destruct (Term_string_undeclared_visibility 28 28 9 [3; 7] "x"%string Hv) as (H1 & _ & _ & H4).
  split; [exact Hv |]. split.
  - apply (H1 3). reflexivity.
  - apply (H4 (mkR1C [259] [9] [259])). right. left. simpl.
    apply list_elem_of_singleton. reflexivity.
Defined.

(** C7: the Term [(3, 1, Public)] has no entry in the table [1, 1], yet
    rendering the expression that holds it after a Term of visibility 9,
    and the constraint with that L, fails with "not implemented", not
    with the index error. *)
Lemma Term_string_coefficient_out_of_range_counterexample :
  Unpack 28 28 206158430467 = (3, 1, Public) /\
  Unpack 28 28 9 = (0, 0, 9) /\
  ~ 0 <= CoeffID 28 28 206158430467 < Z.of_nat (length [1; 1]) /\
  (206158430467 : Term) ∈ [9; 206158430467] /\
  (LinearExpression_string 28 28 [9; 206158430467] [1; 1] EmptyString).1 =
  Panic (PanicString "not implemented") /\
  R1C_String 28 28 (Some (mkR1C [9; 206158430467] [] [])) [1; 1] =
  Panic (PanicString "not implemented") /\
  PanicString "not implemented" <> IndexOutOfRange.
Proof.
  split; [reflexivity |]. split; [reflexivity |].
  split; [change (CoeffID 28 28 206158430467) with 3; simpl; lia |].
  split; [right; left |].
  split; [reflexivity |]. split; [reflexivity | discriminate].
Defined.

(** C7 (amended) at the Term [(3, 1, Public)] and the table [1, 1]. *)
Lemma Term_string_coefficient_out_of_range_witness :
  Unpack 28 28 206158430467 = (3, 1, Public) /\
  ~ 0 <= CoeffID 28 28 206158430467 < Z.of_nat (length [1; 1]) /\
  Term_string 28 28 206158430467 [1; 1] "L["%string = (Panic IndexOutOfRange, "L["%string) /\
  R1C_String 28 28 (Some (mkR1C [259] [206158430467] [259])) [1; 1] = Panic IndexOutOfRange /\
  (exists p : panic,
      R1C_String 28 28 (Some (mkR1C [9; 206158430467] [] [])) [1; 1] = Panic p /\
      (p = IndexOutOfRange \/ p = PanicString "not implemented")).
Proof.
  assert (Hout : ~ 0 <= CoeffID 28 28 206158430467 < Z.of_nat (length [1; 1])).
  { change (CoeffID 28 28 206158430467) with 3. simpl. lia. }
  destruct (Term_string_coefficient_out_of_range 28 28 206158430467 [1; 1] "L["%string Hout)
    as (H1 & _ & _ & H4 & H5).
  split; [reflexivity |]. split; [exact Hout |]. split; [exact H1 |].
  split.
  - apply H5.
    + right. left. simpl. apply list_elem_of_singleton. reflexivity.
    + simpl. intros u Hu Hne. rewrite !list_elem_of_singleton in Hu.
      assert (Hu' : u = 259) by (destruct Hu as [H | [H | H]]; congruence).
      rewrite Hu'. unfold declaredVisibilities. rewrite !elem_of_cons.
      do 3 right. left. reflexivity.
  - apply H4. left. simpl. right. left.
Defined.

(** C8 on a store with one array of three Terms and a slice showing the
    first two. *)
Lemma Clone_independent_witness :
  valid {[ 0%nat := [1796; 513; 259] ]} (mkSlice (Some 0%nat) 0 2 3) /\
  exists (c : slice) (h1 : gmap nat (list Term)),
    Clone (mkSlice (Some 0%nat) 0 2 3) {[ 0%nat := [1796; 513; 259] ]} = (Ok c, h1) /\
    elements h1 c = [1796; 513] /\
    (forall ms : list mutation,
        elements (mutateAll (fun n => (2 * n)%nat) c ms h1).2 (mkSlice (Some 0%nat) 0 2 3)
        = [1796; 513]) /\
    (forall ms : list mutation,
        elements (mutateAll (fun n => (2 * n)%nat) (mkSlice (Some 0%nat) 0 2 3) ms h1).2 c
        = [1796; 513]).
Proof.
  assert (Hv : valid {[ 0%nat := [1796; 513; 259] ]} (mkSlice (Some 0%nat) 0 2 3)).
  { exists [1796; 513; 259]. simpl. split; [apply lookup_singleton_eq | lia]. }
  split; [exact Hv |].
  destruct (Clone_independent (fun n => (2 * n)%nat) _ _ Hv)
    as (c & h1 & p & HC & _ & _ & Hc & _ & Hm1 & Hm2).
  assert (Hel : elements {[ 0%nat := [1796; 513; 259] ]} (mkSlice (Some 0%nat) 0 2 3)
                = [1796; 513]).
  { unfold elements, backing. simpl. rewrite lookup_singleton_eq. reflexivity. }
  rewrite Hel in Hc, Hm1, Hm2.
  exists c, h1. auto.
Defined.

(** C9: 9 is a [uint8], so a [Visibility], and none of the five declared
    constants. *)
Lemma Visibility_closed_counterexample :
  0 <= (9 : Visibility) < 2 ^ 8 /\
  ((9 : Visibility) ∉ declaredVisibilities) /\
  (9 : Visibility) <> Unset /\ (9 : Visibility) <> Internal /\
  (9 : Visibility) <> Secret /\ (9 : Visibility) <> Public /\
  (9 : Visibility) <> Virtual.
Proof.
  split; [lia |].
  split; [apply visibilityPrefix_None; reflexivity |].
  repeat split; discriminate.
Defined.

(** C9 (amended) at the fourth constant and at the value 9. *)
Lemma Visibility_declared_values_witness :
  declaredVisibilities !! 3%nat = Some Public /\ Public = 3 /\
  ((9 : Visibility) ∉ declaredVisibilities).
Proof.
  destruct Visibility_declared_values as (Hk & _ & _ & _ & Hout & _).
  split; [reflexivity |].
  split; [apply (Hk 3%nat Public); reflexivity |].
  apply Hout. lia.
Defined.

(** C10 at two Terms that differ only in the coefficient id. *)
Lemma Less_ignores_coefficient_witness :
  Unpack 28 28 259 = (0, 1, Public) /\
  Unpack 28 28 68719476995 = (1, 1, Public) /\
  Less 28 28 [259; 68719476995] 0 1 = Ok false /\
  Less 28 28 [259; 68719476995] 1 0 = Ok false.
Proof.
  split; [reflexivity |]. split; [reflexivity |].
  destruct (Less_ignores_coefficient 28 28) as (_ & H).
  apply (H [259; 68719476995] 0 1 259 68719476995); reflexivity.
Defined.

(** Aliasing in the store: a second slice over the same array sees a swap,
    the clone does not, and the clone of the nil slice is empty. *)
Example Swap_through_alias :
  elements (Swap (mkSlice (Some 0%nat) 0 2 3) 0 1 {[ 0%nat := [1796; 513; 259] ]}).2
           (mkSlice (Some 0%nat) 0 3 3)
  = [513; 1796; 259].
Proof. vm_compute. reflexivity. Qed.

Example Swap_after_Clone :
  match Clone (mkSlice (Some 0%nat) 0 2 3) {[ 0%nat := [1796; 513; 259] ]} with
  | (Ok c, h1) =>
      let h2 := (Swap c 0 1 h1).2 in
      elements h2 c = [513; 1796] /\
      elements h2 (mkSlice (Some 0%nat) 0 2 3) = [1796; 513]
  | (Panic _, _) => False
  end.
Proof. vm_compute. split; reflexivity. Qed.

Example Clone_nil :
  match Clone (mkSlice None 0 0 0) ∅ with
  | (Ok c, h1) => elements h1 c = [] /\ array c = Some 0%nat
  | (Panic _, _) => False
  end.
Proof. vm_compute. split; reflexivity. Qed.

(** * Instances of the further properties

    On the store with one array [(0,7,Virtual); (0,2,Internal);
    (0,1,Public)] and the slice of its first two Terms. *)

(** X1 at the positions 0 and 1. *)
Lemma Swap_exchanges_witness :
  valid {[ 0%nat := [1796; 513; 259] ]} (mkSlice (Some 0%nat) 0 2 3) /\
  exists h' : gmap nat (list Term),
    Swap (mkSlice (Some 0%nat) 0 2 3) 0 1 {[ 0%nat := [1796; 513; 259] ]} = (Ok tt, h') /\
    index (elements h' (mkSlice (Some 0%nat) 0 2 3)) 0 = Ok 513 /\
    index (elements h' (mkSlice (Some 0%nat) 0 2 3)) 1 = Ok 1796.
Proof.
  assert (Hv : valid {[ 0%nat := [1796; 513; 259] ]} (mkSlice (Some 0%nat) 0 2 3)).
  { exists [1796; 513; 259]. simpl. split; [apply lookup_singleton_eq | lia]. }
  split; [exact Hv |].
  destruct (Swap_exchanges _ _ 0 1 Hv ltac:(simpl; lia) ltac:(simpl; lia))
    as (h' & ti & tj & Hrun & Hi & Hj & Hi' & Hj' & _).
  vm_compute in Hi. injection Hi as <-.
  vm_compute in Hj. injection Hj as <-.
  exists h'. auto.
Defined.

(** X2 at the positions 0 and 5. *)
Lemma Swap_out_of_range_witness :
  Len (elements {[ 0%nat := [1796; 513; 259] ]} (mkSlice (Some 0%nat) 0 2 3)) = 2 /\
  Swap (mkSlice (Some 0%nat) 0 2 3) 0 5 {[ 0%nat := [1796; 513; 259] ]} =
  (Panic IndexOutOfRange, {[ 0%nat := [1796; 513; 259] ]}).
Proof.
  assert (HL : Len (elements {[ 0%nat := [1796; 513; 259] ]} (mkSlice (Some 0%nat) 0 2 3)) = 2)
    by (vm_compute; reflexivity).
  split; [exact HL |].
  apply Swap_out_of_range. rewrite HL. lia.
Defined.

(** X3 at the positions 0 and 1. *)
Lemma Swap_twice_witness :
  exists h' : gmap nat (list Term),
    Swap (mkSlice (Some 0%nat) 0 2 3) 0 1 {[ 0%nat := [1796; 513; 259] ]} = (Ok tt, h') /\
    Swap (mkSlice (Some 0%nat) 0 2 3) 0 1 h' = (Ok tt, {[ 0%nat := [1796; 513; 259] ]}).
Proof.
  apply Swap_twice; [| simpl; lia | simpl; lia].
  exists [1796; 513; 259]. simpl. split; [apply lookup_singleton_eq | lia].
Defined.

(** X5 at the positions 0 and 1. *)
Lemma Less_after_Swap_witness :
  exists h' : gmap nat (list Term),
    Swap (mkSlice (Some 0%nat) 0 2 3) 0 1 {[ 0%nat := [1796; 513; 259] ]} = (Ok tt, h') /\
    Less 28 28 (elements h' (mkSlice (Some 0%nat) 0 2 3)) 0 1 = Ok false /\
    Less 28 28 (elements h' (mkSlice (Some 0%nat) 0 2 3)) 1 0 = Ok true.
Proof.
  assert (Hv : valid {[ 0%nat := [1796; 513; 259] ]} (mkSlice (Some 0%nat) 0 2 3)).
  { exists [1796; 513; 259]. simpl. split; [apply lookup_singleton_eq | lia]. }
  destruct (Less_after_Swap 28 28 _ _ 0 1 Hv ltac:(simpl; lia) ltac:(simpl; lia))
    as (h' & Hrun & H01 & H10 & _).
  exists h'. split; [exact Hrun |].
  rewrite H01, H10. split; vm_compute; reflexivity.
Defined.

(** X6 on a sorted LinearExpression of three Terms. *)
Lemma IsSorted_all_pairs_witness :
  IsSorted 28 28 [1796; 259; 513] /\ Less 28 28 [1796; 259; 513] 2 0 = Ok false.
Proof.
  assert (Hs : IsSorted 28 28 [1796; 259; 513]).
  { intros i Hi. unfold Len in Hi. simpl in Hi.
    assert (i = 1 \/ i = 2) as [-> | ->] by lia; reflexivity. }
  split; [exact Hs |].
  apply (IsSorted_all_pairs 28 28 [1796; 259; 513] 0 2 Hs); unfold Len; simpl; lia.
Defined.

(** X8 at the two halves of the spec's example. *)
Lemma LinearExpression_string_app_witness :
  LinearExpression_string 28 28 ([1281] ++ [68719477251]) [3; 7] EmptyString =
  (LinearExpression_string 28 28 [1281] [3; 7] ;;
   WriteString " + " ;;
   LinearExpression_string 28 28 [68719477251] [3; 7])%monad EmptyString.
Proof.
  apply LinearExpression_string_app; discriminate.
Defined.

(** X10 at a Term of visibility 9 after a Term that renders. *)
Lemma LinearExpression_string_first_failure_witness :
  (LinearExpression_string 28 28 ([1281] ++ 9 :: [259]) [3; 7] EmptyString).1 =
  Panic (PanicString "not implemented").
Proof.
  assert (Hall : forall u : Term,
             u ∈ [1281] ->
             0 <= CoeffID 28 28 u < Z.of_nat (length [3; 7]) /\
             VariableVisibility 28 28 u ∈ declaredVisibilities).
  { intros u Hu. apply list_elem_of_singleton in Hu. rewrite Hu.
    split; [vm_compute; split; [discriminate | reflexivity] |].
    unfold declaredVisibilities. rewrite !elem_of_cons. right. left. reflexivity. }
  destruct (LinearExpression_string_first_failure 28 28 [1281] [259] 9 [3; 7]
              EmptyString Hall) as [_ H].
  apply H.
  - vm_compute. split; [discriminate | reflexivity].
  - apply visibilityPrefix_None. reflexivity.
Defined.

(** X11 and X12 on the same store. *)
Lemma Clone_then_append_witness :
  exists (c : slice) (h1 : gmap nat (list Term)),
    Clone (mkSlice (Some 0%nat) 0 2 3) {[ 0%nat := [1796; 513; 259] ]} = (Ok c, h1) /\
    cap c = len c /\
    exists (c' : slice) (h2 : gmap nat (list Term)),
      append (fun n => (2 * n)%nat) c 7 h1 = (Ok c', h2) /\
      elements h2 c' = [1796; 513; 7] /\
      elements h2 c = [1796; 513].
Proof.
  assert (Hv : valid {[ 0%nat := [1796; 513; 259] ]} (mkSlice (Some 0%nat) 0 2 3)).
  { exists [1796; 513; 259]. simpl. split; [apply lookup_singleton_eq | lia]. }
  destruct (Clone_then_append (fun n => (2 * n)%nat) _ _ Hv)
    as (c & h1 & HC & _ & Hcap & _ & _ & Happ).
  destruct (Happ 7) as (c' & h2 & p' & Ha & _ & _ & Hc' & Hc & _).
  assert (Hel : elements {[ 0%nat := [1796; 513; 259] ]} (mkSlice (Some 0%nat) 0 2 3)
                = [1796; 513]) by (vm_compute; reflexivity).
  rewrite Hel in Hc', Hc.
  exists c, h1. split; [exact HC |]. split; [exact Hcap |].
  exists c', h2. auto.
Defined.

Lemma Clone_preserves_slices_witness :
  exists (c : slice) (h1 : gmap nat (list Term)),
    Clone (mkSlice (Some 0%nat) 0 2 3) {[ 0%nat := [1796; 513; 259] ]} = (Ok c, h1) /\
    valid h1 c /\
    elements h1 (mkSlice (Some 0%nat) 1 2 2) = [513; 259].
Proof.
  assert (Hv : valid {[ 0%nat := [1796; 513; 259] ]} (mkSlice (Some 0%nat) 0 2 3)).
  { exists [1796; 513; 259]. simpl. split; [apply lookup_singleton_eq | lia]. }
  assert (Hs : valid {[ 0%nat := [1796; 513; 259] ]} (mkSlice (Some 0%nat) 1 2 2)).
  { exists [1796; 513; 259]. simpl. split; [apply lookup_singleton_eq | lia]. }
  destruct (Clone_preserves_slices _ _ Hv) as (c & h1 & HC & Hvc & _ & Hall).
  destruct (Hall _ Hs) as [Hel _].
  exists c, h1. split; [exact HC |]. split; [exact Hvc |].
  rewrite Hel. vm_compute. reflexivity.
Defined.

(** X13 at the constraint of the spec's example and one more table entry. *)
Lemma R1C_String_longer_table_witness :
  R1C_String 28 28 (Some (mkR1C [259] [259] [68719477249])) [1; 1] =
  Ok "L[1*p1] * R[1*p1] = O[1*i2]"%string /\
  R1C_String 28 28 (Some (mkR1C [259] [259] [68719477249])) ([1; 1] ++ [5]) =
  Ok "L[1*p1] * R[1*p1] = O[1*i2]"%string.
Proof.
  assert (H : R1C_String 28 28 (Some (mkR1C [259] [259] [68719477249])) [1; 1] =
              Ok "L[1*p1] * R[1*p1] = O[1*i2]"%string) by reflexivity.
  split; [exact H |].
  apply (R1C_String_longer_table 28 28 _ [1; 1] [5] _ H).
Defined.

(** X14 at the position 1. *)
Lemma Swap_same_index_witness :
  Swap (mkSlice (Some 0%nat) 0 2 3) 1 1 {[ 0%nat := [1796; 513; 259] ]} =
  (Ok tt, {[ 0%nat := [1796; 513; 259] ]}).
Proof.
  apply Swap_same_index; [| simpl; lia].
  exists [1796; 513; 259]. simpl. split; [apply lookup_singleton_eq | lia].
Defined.
